(** * Catalog synchronisation pipeline: a shallow embedding

    The development follows the batch updater of the repository
    ([runUpdate], [withRetry]), the country resolver
    ([country-mapper.js]) and the stand-alone price converter
    ([priceConverter.js]).

    Modelling conventions.
    - A JavaScript string is a [string] of 8-bit characters.  Case mapping
      and white space are the ASCII ones; other characters are left
      unchanged by [toLowerCase]/[toUpperCase] and are never white space.
    - A JavaScript number is a binary64 double, given by its exact
      rational value ([Q]); a value that does not convert to a number (NaN)
      is [None].  Where the code's result depends on the value of an
      arithmetic expression (the published price, the converter), every
      operation is rounded to the nearest double, ties to even
      ([round64]); where only the sign of a product is read
      ([basePriceToman <= 0]) the exact product stands for the double,
      which has the same sign ([basePriceDouble_sign]).  The exponent range
      is not bounded: infinities, NaN rates and results below the smallest
      normal double are outside the model.
    - A plain JavaScript object used as a table and enumerated with
      [for ... in] is an association list in enumeration order.
    - The [Map] of the resolver is a [gmap]; the grouping [Map] of the
      updater, whose insertion order decides the output order, is an
      association list. *)

From Stdlib Require Import QArith Qround Qabs Qpower Lqa.
From Stdlib Require Import Ascii.
From stdpp Require Import gmap strings list fin_maps.
From Stdlib Require Import Permutation.

Local Open Scope string_scope.

(** ** Strings *)

Definition isUpper (c : ascii) : bool :=
  let n := Ascii.N_of_ascii c in ((65 <=? n) && (n <=? 90))%N.

Definition isLower (c : ascii) : bool :=
  let n := Ascii.N_of_ascii c in ((97 <=? n) && (n <=? 122))%N.

Definition isDigit (c : ascii) : bool :=
  let n := Ascii.N_of_ascii c in ((48 <=? n) && (n <=? 57))%N.

(** White space removed by [String.prototype.trim] (ASCII part). *)
Definition isSpace (c : ascii) : bool :=
  let n := Ascii.N_of_ascii c in (((9 <=? n) && (n <=? 13)) || (n =? 32))%N.

Definition lowerChar (c : ascii) : ascii :=
  if isUpper c then Ascii.ascii_of_N (Ascii.N_of_ascii c + 32) else c.

Definition upperChar (c : ascii) : ascii :=
  if isLower c then Ascii.ascii_of_N (Ascii.N_of_ascii c - 32) else c.

Fixpoint mapString (f : ascii -> ascii) (s : string) : string :=
  match s with
  | EmptyString => EmptyString
  | String c r => String (f c) (mapString f r)
  end.

Fixpoint filterString (p : ascii -> bool) (s : string) : string :=
  match s with
  | EmptyString => EmptyString
  | String c r => if p c then String c (filterString p r) else filterString p r
  end.

Definition toLowerCase : string -> string := mapString lowerChar.
Definition toUpperCase : string -> string := mapString upperChar.

Fixpoint trimStart (s : string) : string :=
  match s with
  | EmptyString => EmptyString
  | String c r => if isSpace c then trimStart r else s
  end.

Fixpoint trimEnd (s : string) : string :=
  match s with
  | EmptyString => EmptyString
  | String c r =>
      match trimEnd r with
      | EmptyString => if isSpace c then EmptyString else String c EmptyString
      | r' => String c r'
      end
  end.

Definition trim (s : string) : string := trimEnd (trimStart s).

(** [s.split(' ')]: always at least one piece. *)
Fixpoint splitSpace (s : string) : list string :=
  match s with
  | EmptyString => [EmptyString]
  | String c r =>
      if Ascii.eqb c " " then EmptyString :: splitSpace r
      else match splitSpace r with
           | w :: ws => String c w :: ws
           | [] => [String c EmptyString]
           end
  end.

Fixpoint joinSpace (ws : list string) : string :=
  match ws with
  | [] => EmptyString
  | [w] => w
  | w :: rest => w +:+ " " +:+ joinSpace rest
  end.

(** [word.charAt(0).toUpperCase() + word.slice(1).toLowerCase()] *)
Definition capitalize (word : string) : string :=
  match word with
  | EmptyString => EmptyString
  | String c r => String (upperChar c) (toLowerCase r)
  end.

Definition titleCase (name : string) : string :=
  joinSpace (map capitalize (splitSpace name)).

(** A string is truthy when it is not empty. *)
Definition truthy (s : string) : bool := negb (String.eqb s "").

(** ** Plain objects used as tables *)

Definition JsObject : Type := list (string * string).

(** Property read [o[k]]; [None] is [undefined]. *)
Fixpoint jsGet (o : JsObject) (k : string) : option string :=
  match o with
  | [] => None
  | (k', v) :: r => if String.eqb k' k then Some v else jsGet r k
  end.

Definition truthyProp (v : option string) : bool :=
  match v with
  | Some s => truthy s
  | None => false
  end.

(** ** country-mapper.js *)

Record CountryData : Type := mkCountryData {
  persian : string;
  code : string;
  original : string
}.

(** [name.toLowerCase().replace(/[^a-z0-9]/g, '')] *)
Definition generateCanonicalName (name : string) : string :=
  filterString (fun c => isLower c || isDigit c) (toLowerCase name).

Section CountryMapper.

(** The three data files the module requires; they are not part of the
    sources at hand and stay parameters. *)
Variable smsActivateCountries : JsObject.
Variable countryTranslations : JsObject.
Variable countryCodes : JsObject.

(** Body of the first loop: one provider-supplied country.  The entry is
    stored only when both [persianName] and [code] are truthy. *)
Definition addProviderCountry
    (m : gmap string CountryData) (entry : string * string)
    : gmap string CountryData :=
  let name := entry.2 in
  let canonicalName := generateCanonicalName name in
  match jsGet countryTranslations canonicalName,
        jsGet countryCodes canonicalName with
  | Some persianName, Some code =>
      if truthy persianName && truthy code
      then <[canonicalName := mkCountryData persianName code name]> m
      else m
  | _, _ => m
  end.

(** Body of the second loop: one key of the translation table.  The
    entry is stored only when the map has no entry for the canonical key
    yet and [code] is truthy; [countryTranslations[key]] is the value
    enumerated with [key]. *)
Definition addTranslatedCountry
    (m : gmap string CountryData) (entry : string * string)
    : gmap string CountryData :=
  let key := entry.1 in
  let canonicalName := generateCanonicalName key in
  match m !! canonicalName with
  | Some _ => m
  | None =>
      match jsGet countryCodes canonicalName with
      | Some code =>
          if truthy code
          then <[canonicalName := mkCountryData entry.2 code key]> m
          else m
      | None => m
      end
  end.

Definition unifiedCountryMap : gmap string CountryData :=
  fold_left addTranslatedCountry countryTranslations
    (fold_left addProviderCountry smsActivateCountries ∅).

Definition getCountryDataByCanonicalName (name : string)
    : option CountryData :=
  unifiedCountryMap !! generateCanonicalName name.

End CountryMapper.

(** ** Numbers *)

Local Open Scope Q_scope.

(** [Number(v) || 0] *)
Definition numberOrZero (v : option Q) : Q :=
  match v with
  | Some q => q
  | None => 0
  end.

(** [Math.pow(2, i)] for a loop index. *)
Definition pow2 (i : nat) : Q := inject_Z (2 ^ Z.of_nat i).

(** *** Binary64 arithmetic

    A finite double is [m * 2 ^ e] with an integer [m] of at most 53 bits.
    [round64 q] is the double nearest to [q], ties going to the even [m]:
    the result of a JavaScript operation whose exact value is [q], and the
    value of a decimal literal or of a number read from JSON that spells
    [q]. *)

(** [floor(log2 q)] for a positive [q]. *)
Definition binade (q : Q) : Z :=
  let l := (Z.log2 (Qnum q) - Z.log2 (Zpos (Qden q)))%Z in
  if Qle_bool (2 ^ l) q then l else (l - 1)%Z.

(** The integer nearest to [s], the even one of the two when [s] lies half
    way. *)
Definition nearestEven (s : Q) : Z :=
  let f := Qfloor s in
  match Qcompare (s - inject_Z f) (1 # 2) with
  | Lt => f
  | Gt => (f + 1)%Z
  | Eq => if Z.even f then f else (f + 1)%Z
  end.

Definition round64 (q : Q) : Q :=
  if Qeq_bool q 0 then 0
  else
    let e := (binade (Qabs q) - 52)%Z in
    Qred (inject_Z (nearestEven (q / 2 ^ e)) * 2 ^ e).

(** Half the distance between 1 and the next double, relative to 1. *)
Definition unitRoundoff : Q := 1 # (2 ^ 53).

(** [a * b], [a + b] and [a / b] on doubles. *)
Definition mul64 (a b : Q) : Q := round64 (a * b).
Definition add64 (a b : Q) : Q := round64 (a + b).
Definition div64 (a b : Q) : Q := round64 (a / b).

(** ** The retry executor ([withRetry]) *)

(** A thrown value: [status] is [error.response && error.response.status],
    [None] when the error carries no response or no status. *)
Record JsError : Type := mkError {
  status : option Z;
  message : string
}.

(** [status === 429 || status >= 500] *)
Definition retryable (e : JsError) : bool :=
  match status e with
  | Some st => ((st =? 429) || (500 <=? st))%Z
  | None => false
  end.

(** How a call of the executor ends. [Threw None] is [throw undefined],
    which happens only when the loop body never ran. *)
Inductive Completion (R : Type) : Type :=
| Returned (r : R)
| Threw (e : option JsError).
Arguments Returned {R} r.
Arguments Threw {R} e.

(** What a run of the executor did: how it ended, the outcome of every
    invocation of the operation in order, the delays slept, and the
    state of the outside world afterwards. *)
Record RetryRun (W R : Type) : Type := mkRun {
  completion : Completion R;
  attempts : list (R + JsError);
  sleeps : list Q;
  world : W
}.
Arguments mkRun {W R}.
Arguments completion {W R}.
Arguments attempts {W R}.
Arguments sleeps {W R}.
Arguments world {W R}.

Definition calls {W R : Type} (run : RetryRun W R) : nat :=
  length (attempts run).

Section WithRetry.

Context {W R : Type}.

(** The wrapped operation acts on the outside world [W] and either
    resolves with a result or rejects with an error. *)
Variable fn : W -> (R + JsError) * W.
Variable delay : Q.
Variable jitter : Q.
(** [Math.random()] as drawn in iteration [i]. *)
Variable random : nat -> Q.

Definition waitTime (i : nat) : Q := delay * pow2 i + random i * jitter.

(** The loop [for (let i = 0; i < retries; i++)], started at index [i]
    with [remaining = retries - i] iterations to go. *)
Fixpoint retryLoop (remaining i : nat) (lastError : option JsError) (w : W)
    : RetryRun W R :=
  match remaining with
  | O => mkRun (Threw lastError) [] [] w
  | S remaining' =>
      match fn w with
      | (inl r, w') => mkRun (Returned r) [inl r] [] w'
      | (inr error, w') =>
          if retryable error then
            let rest := retryLoop remaining' (S i) (Some error) w' in
            mkRun (completion rest)
                  (inr error :: attempts rest)
                  (waitTime i :: sleeps rest)
                  (world rest)
          else mkRun (Threw (Some error)) [inr error] [] w'
      end
  end.

Definition withRetry (retries : nat) (w : W) : RetryRun W R :=
  retryLoop retries 0 None w.

(** The state of the world before invocation [k], when every earlier
    invocation was followed by another one. *)
Definition worldBefore (k : nat) (w : W) : W :=
  Nat.iter k (fun w' => (fn w').2) w.

End WithRetry.

(** ** The batch updater ([runUpdate]): normalisation and grouping *)

(** An element of [allServicesRaw]. *)
Record RawService : Type := mkRaw {
  provider : string;
  country : string;
  service : string;
  service_name : option string;   (* set by the sms-activate adapter only *)
  operator : string;
  price : option Q;               (* [Number(s.price)], [None] for NaN *)
  count : Z;
  rate : Q
}.

(** A document of the [services] collection. *)
Record Service : Type := mkService {
  id : string;
  svc_service : string;
  service_persian : string;
  svc_country : string;
  country_persian : string;
  country_code : string;
  svc_operator : string;
  price_toman : Z;
  priority : Z;
  available : bool;
  success_rate : Q;
  svc_provider : string
}.

(** An entry of [service-priority.js]; the file is not among the sources,
    its shape is the one [runUpdate] reads. *)
Record PriorityInfo : Type := mkPriority {
  name : option string;
  info_priority : option Z
}.

(** State of the normalisation loop. *)
Record LoopState : Type := mkLoop {
  serviceMap : list (string * list Service);
  unknownServiceCodes : gset string
}.

Definition addUnknown (st : LoopState) (code : string) : LoopState :=
  mkLoop (serviceMap st) ({[code]} ∪ unknownServiceCodes st).

(** [if (!serviceMap.has(k)) serviceMap.set(k, []); serviceMap.get(k).push(v)]
    on a [Map] kept in insertion order. *)
Fixpoint pushGroup (m : list (string * list Service)) (k : string) (v : Service)
    : list (string * list Service) :=
  match m with
  | [] => [(k, [v])]
  | (k', vs) :: r =>
      if String.eqb k' k then (k', (vs ++ [v])%list) :: r
      else (k', vs) :: pushGroup r k v
  end.

(** [Array.from(serviceMap.values()).flat()] *)
Definition flattenGroups (m : list (string * list Service)) : list Service :=
  concat (map snd m).

Section RunUpdate.

Variable usdToTomanRate : Q.
Variable rubToTomanRate : Q.
Variable servicePriority : gmap string PriorityInfo.
(** The resolver imported from [country-mapper.js]. *)
Variable getCountryData : string -> option CountryData.

Definition cleanServiceCode (s : RawService) : string :=
  trim (toLowerCase (service s)).

Definition cleanCountry (s : RawService) : string :=
  trim (toLowerCase (country s)).

(** [s.service_name || s.service] *)
Definition canonicalEnglishName (s : RawService) : string :=
  match service_name s with
  | Some n => if truthy n then n else service s
  | None => service s
  end.

(** [servicePriority[canonicalKeyFromName] || servicePriority[cleanServiceCode]] *)
Definition priorityInfo (s : RawService) : option PriorityInfo :=
  let canonicalKeyFromName := generateCanonicalName (canonicalEnglishName s) in
  match servicePriority !! canonicalKeyFromName with
  | Some info => Some info
  | None => servicePriority !! cleanServiceCode s
  end.

(** [priorityInfo?.name], replaced by the title-cased English name when
    falsy. *)
Definition servicePersian (s : RawService) : string :=
  match priorityInfo s ≫= name with
  | Some n => if truthy n then n else titleCase (canonicalEnglishName s)
  | None => titleCase (canonicalEnglishName s)
  end.

(** Whether the loop body reaches one of the two
    [unknownServiceCodes.add(s.service)]. *)
Definition notesUnknown (s : RawService) : bool :=
  if truthy (canonicalEnglishName s)
  then negb (truthyProp (priorityInfo s ≫= name))
       && negb (bool_decide (is_Some (priorityInfo s)))
  else true.

(** The exact product behind [basePriceToman]; the loop reads its sign
    only ([basePriceToman <= 0]). *)
Definition basePriceToman (s : RawService) : Q :=
  if String.eqb (provider s) "sms-activate"
  then numberOrZero (price s) * usdToTomanRate
  else numberOrZero (price s) * rubToTomanRate.

(** The double the code stores in [basePriceToman]: the product of the
    record's cost and the rate of its provider. *)
Definition basePriceDouble (s : RawService) : Q :=
  if String.eqb (provider s) "sms-activate"
  then mul64 (round64 (numberOrZero (price s))) (round64 usdToTomanRate)
  else mul64 (round64 (numberOrZero (price s))) (round64 rubToTomanRate).

(** [Math.ceil(basePriceToman * 1.4)] *)
Definition finalPriceToman (s : RawService) : Z :=
  Qceiling (mul64 (basePriceDouble s) (round64 (14 # 10))).

(** [priorityInfo?.priority || 999] *)
Definition priorityOf (s : RawService) : Z :=
  match priorityInfo s ≫= info_priority with
  | Some p => if (p =? 0)%Z then 999%Z else p
  | None => 999%Z
  end.

Definition formattedService (s : RawService) (countryData : CountryData)
    : Service :=
  {| id := "srv_" +:+ cleanServiceCode s +:+ "_" +:+ cleanCountry s +:+ "_"
             +:+ operator s +:+ "_" +:+ provider s;
     svc_service := service s;
     service_persian := servicePersian s;
     svc_country := country s;
     country_persian := persian countryData;
     country_code := code countryData;
     svc_operator := operator s;
     price_toman := finalPriceToman s;
     priority := priorityOf s;
     available := (0 <? count s)%Z;
     success_rate := rate s;
     svc_provider := provider s |}.

(** The document the loop body builds for [s]; [None] when the body
    leaves through one of its three [continue]s. *)
Definition normalize (s : RawService) : option Service :=
  if truthy (canonicalEnglishName s) then
    match getCountryData (cleanCountry s) with
    | None => None
    | Some countryData =>
        if Qle_bool (basePriceToman s) 0 then None
        else Some (formattedService s countryData)
    end
  else None.

Definition mapKey (f : Service) : string :=
  service_persian f +:+ "_" +:+ country_persian f.

(** One iteration of [for (const s of allServicesRaw)]. *)
Definition processRecord (st : LoopState) (s : RawService) : LoopState :=
  let st1 := if notesUnknown s then addUnknown st (service s) else st in
  match normalize s with
  | None => st1
  | Some f =>
      mkLoop (pushGroup (serviceMap st1) (mapKey f) f)
             (unknownServiceCodes st1)
  end.

Definition initialLoop : LoopState := mkLoop [] ∅.

Definition normalizeAll (allServicesRaw : list RawService) : LoopState :=
  fold_left processRecord allServicesRaw initialLoop.

(** [formattedServices], the list handed to the publisher. *)
Definition formattedServices (allServicesRaw : list RawService)
    : list Service :=
  flattenGroups (serviceMap (normalizeAll allServicesRaw)).

End RunUpdate.

(** ** The publisher (last part of [runUpdate]) *)

(** The database: collection name to documents.  A collection that does
    not exist has no binding. *)
Definition live : string := "services".
Definition shadow : string := "service_temps".

(** [Service.find({})]: a missing collection reads as no documents. *)
Definition readCatalog (db : gmap string (list Service)) : list Service :=
  default [] (db !! live).

(** [Model.deleteMany({})] *)
Definition deleteMany (c : string) (db : gmap string (list Service))
    : gmap string (list Service) :=
  alter (fun _ => []) c db.

(** [db.dropCollection(c)]; [None] is the rejection with code 26
    (NamespaceNotFound). *)
Definition dropCollection (c : string) (db : gmap string (list Service))
    : option (gmap string (list Service)) :=
  match db !! c with
  | Some _ => Some (delete c db)
  | None => None
  end.

(** [db.renameCollection(from, to)] without [dropTarget]: rejected when the
    source is missing or the target exists. *)
Definition renameCollection (from to : string) (db : gmap string (list Service))
    : option (gmap string (list Service)) :=
  match db !! from, db !! to with
  | Some docs, None => Some (<[to := docs]> (delete from db))
  | _, _ => None
  end.

Inductive Phase : Type :=
| Connected      (* before [TempService.deleteMany] *)
| Cleared        (* after [deleteMany] *)
| Inserted       (* after [insertMany] *)
| Dropped        (* after [dropCollection] and its [catch] *)
| Renamed        (* after [renameCollection] *)
| Aborted.       (* an operation rejected; control is in the outer [catch] *)

Record PublishState : Type := mkPublish {
  phase : Phase;
  store : gmap string (list Service)
}.

Section Publisher.

(** Validation by [Service.schema], which is not among the sources. With
    [ordered: false] the documents that fail it are left out and the
    others are written. *)
Variable validates : Service -> bool.

(** [Model.insertMany(docs, { ordered: false })] *)
Definition insertMany (c : string) (docs : list Service)
    (db : gmap string (list Service)) : gmap string (list Service) :=
  <[c := (default [] (db !! c) ++ filter (fun d => validates d = true) docs)%list]> db.

Variable formatted : list Service.

(** The next store operation of the publisher; [None] once it is over. *)
Definition publishNext (st : PublishState) : option PublishState :=
  match phase st with
  | Connected => Some (mkPublish Cleared (deleteMany shadow (store st)))
  | Cleared => Some (mkPublish Inserted (insertMany shadow formatted (store st)))
  | Inserted =>
      (* the rejection of [dropCollection] is caught and only logged *)
      Some (mkPublish Dropped
              (default (store st) (dropCollection live (store st))))
  | Dropped =>
      match renameCollection shadow live (store st) with
      | Some db => Some (mkPublish Renamed db)
      | None => Some (mkPublish Aborted (store st))
      end
  | Renamed | Aborted => None
  end.

Definition publish_step (st st' : PublishState) : Prop :=
  publishNext st = Some st'.

(** States a concurrent reader can find the store in during a publish
    that starts on [db]. *)
Definition reachable (db : gmap string (list Service)) (st : PublishState)
    : Prop :=
  rtc publish_step (mkPublish Connected db) st.

(** The publisher run to its end. *)
Fixpoint publishRun (fuel : nat) (st : PublishState) : PublishState :=
  match fuel with
  | O => st
  | S fuel' =>
      match publishNext st with
      | Some st' => publishRun fuel' st'
      | None => st
      end
  end.

End Publisher.

(** ** priceConverter.js *)

Record Rates : Type := mkRates {
  rub : Q;
  usd : Q
}.

(** [parseFloat(process.env.PROFIT_MARGIN) || 0.4] *)
Definition PROFIT_MARGIN (env : option Q) : Q :=
  match env with
  | Some m => if Qeq_bool m 0 then 4 # 10 else m
  | None => 4 # 10
  end.

(** [parseInt(process.env.ROUNDING_PRECISION, 10) || 100] *)
Definition ROUNDING_PRECISION (env : option Z) : Z :=
  match env with
  | Some p => if (p =? 0)%Z then 100%Z else p
  | None => 100%Z
  end.

Section PriceConverter.

Variable envMargin : option Q.
Variable envPrecision : option Z.

Definition convertToToman (price : Q) (currency : string) (rates : Rates)
    : Z :=
  let rate :=
    if String.eqb currency "RUB" then rub rates
    else if String.eqb currency "USD" then usd rates
    else 1 in
  let precision := round64 (inject_Z (ROUNDING_PRECISION envPrecision)) in
  let convertedPrice := mul64 (round64 price) (round64 rate) in
  let rounded :=
    Qceiling (div64 (mul64 convertedPrice
                       (add64 1 (round64 (PROFIT_MARGIN envMargin))))
                precision) in
  Qceiling (mul64 (inject_Z rounded) precision).

End PriceConverter.

(** ** cache.js

    The module keeps one private [Map] from keys to a value and its
    expiry time.  [Date.now()] is an argument.  The two modules that use
    the cache store truthy values only, so a cached value is always
    truthy. *)

Local Close Scope Q_scope.

Record CacheEntry (V : Type) : Type := mkCacheEntry {
  cached_value : V;
  expiration : Z
}.
Arguments mkCacheEntry {V}.
Arguments cached_value {V}.
Arguments expiration {V}.

(** [if (!ttlSeconds) ttlSeconds = 600], for a [ttlSeconds] that is a number
    ([Some t]) or is not passed ([None]). *)
Definition effectiveTtl (ttlSeconds : option Z) : Z :=
  match ttlSeconds with
  | Some t => if (t =? 0)%Z then 600%Z else t
  | None => 600%Z
  end.

Definition setCache {V : Type} (key : string) (v : V) (ttlSeconds : option Z)
    (now : Z) (cache : gmap string (CacheEntry V)) : gmap string (CacheEntry V) :=
  <[key := mkCacheEntry v (now + effectiveTtl ttlSeconds * 1000)%Z]> cache.

(** Returns the value ([None] is [null]) and the cache, from which an
    entry that is not served is purged. *)
Definition getCache {V : Type} (key : string) (now : Z)
    (cache : gmap string (CacheEntry V)) : option V * gmap string (CacheEntry V) :=
  match cache !! key with
  | Some cached =>
      if (now <? expiration cached)%Z then (Some (cached_value cached), cache)
      else (None, delete key cache)
  | None => (None, delete key cache)
  end.

(** ** priceConverter.js: [getConversionRates] *)

(** How [axios.get] ends: with [response.data] ([None] when it is falsy)
    or with a rejection. *)
Inductive FetchOutcome (D : Type) : Type :=
| Responded (data : option D)
| RequestFailed.
Arguments Responded {D} data.
Arguments RequestFailed {D}.

Definition unavailable : JsError :=
  mkError None "Price conversion currently unavailable—please try again later".

(** The time to live [setCache] uses when it is handed
    [process.env.PRICE_CACHE_TTL_SECONDS], a string and not a number.  [None]
    is a variable that is unset or empty, [Some n] one whose text spells the
    integer [n]; a text that spells no number is outside the model.  Every
    non-empty string is truthy, ["0"] too, so the default applies only to
    [None], and [ttlSeconds * 1000] converts the text to its number. *)
Definition envTtl (ttlEnv : option Z) : Z :=
  match ttlEnv with
  | Some n => n
  | None => 600%Z
  end.

(** [setCache(key, value, process.env.PRICE_CACHE_TTL_SECONDS)] *)
Definition setCacheEnv {V : Type} (key : string) (v : V) (ttlEnv : option Z)
    (now : Z) (cache : gmap string (CacheEntry V)) : gmap string (CacheEntry V) :=
  <[key := mkCacheEntry v (now + envTtl ttlEnv * 1000)%Z]> cache.

(** [ttlEnv] is the environment variable, [now] is the clock at the first
    cache read, [later] the clock once the request has settled.  The result
    is the value returned ([None] is [null]) or the error thrown, with the
    cache as it is left. *)
Definition getConversionRates {D : Type} (ttlEnv : option Z)
    (now : Z) (outcome : FetchOutcome D) (later : Z)
    (cache : gmap string (CacheEntry D))
    : Completion (option D) * gmap string (CacheEntry D) :=
  let cacheKey := "sarfe-rates" in
  match getCache cacheKey now cache with
  | (Some cachedData, cache1) => (Returned (Some cachedData), cache1)
  | (None, cache1) =>
      match outcome with
      | Responded (Some data) =>
          (Returned (Some data), setCacheEnv cacheKey data ttlEnv later cache1)
      | Responded None => (Returned None, cache1)
      | RequestFailed =>
          match getCache cacheKey later cache1 with
          | (Some cachedRates, cache2) => (Returned (Some cachedRates), cache2)
          | (None, cache2) => (Threw (Some unavailable), cache2)
          end
      end
  end.

(** ** The sms-activate adapter of the updater ([fetchSmsActivatePrices]) *)

(** An element of [servicesResponse.data.services]. *)
Record SmsService : Type := mkSmsService {
  sms_code : string;
  sms_name : option string
}.

(** [servicesResponse.data] *)
Record ServicesList : Type := mkServicesList {
  list_status : string;
  list_services : list SmsService
}.

(** A value of [priceResponse.data], which is keyed by country id. *)
Record CountryPrice : Type := mkCountryPrice {
  retail_price : option Q;
  available_count : Z
}.

(** What a call of the adapter did: how it ended, how many requests it
    sent, and the world afterwards. *)
Record FetchRun (W : Type) : Type := mkFetch {
  fetched : Completion (list RawService);
  requests : nat;
  fetch_world : W
}.
Arguments mkFetch {W}.
Arguments fetched {W}.
Arguments requests {W}.
Arguments fetch_world {W}.

Section SmsActivateAdapter.

Context {W : Type}.

(** The two requests, [action: 'getServicesList'] and
    [action: 'getTopCountriesByService'] for a service code. *)
Variable getServicesList : W -> (ServicesList + JsError) * W.
Variable getTopCountriesByService :
  string -> W -> (list (string * CountryPrice) + JsError) * W.
(** [Math.random()] in iteration [i] of the [n]-th call of [withRetry]. *)
Variable random : nat -> nat -> Q.
(** The id-to-name table passed by [runUpdate]. *)
Variable countries : JsObject.

(** The inner loop [for (const countryId in prices)]. *)
Definition smsRecords (service : SmsService)
    (prices : list (string * CountryPrice)) : list RawService :=
  omap (fun entry : string * CountryPrice =>
          match jsGet countries entry.1 with
          | Some countryName =>
              if truthy countryName
              then Some (mkRaw "sms-activate" countryName (sms_code service)
                           (sms_name service) "any"
                           (retail_price entry.2) (available_count entry.2) 0%Q)
              else None
          | None => None
          end) prices.

(** The loop [for (const service of services)] with its [try]/[catch]:
    a service whose request fails for good is logged and skipped. *)
Fixpoint fetchServices (services : list SmsService) (n : nat)
    (allSmsServices : list RawService) (sent : nat) (w : W)
    : list RawService * nat * W :=
  match services with
  | [] => (allSmsServices, sent, w)
  | service :: rest =>
      let run := withRetry (getTopCountriesByService (sms_code service))
                   1000%Q 200%Q (random n) 3 w in
      match completion run with
      | Returned prices =>
          fetchServices rest (S n)
            (allSmsServices ++ smsRecords service prices)%list
            (sent + calls run) (world run)
      | Threw _ =>
          fetchServices rest (S n) allSmsServices (sent + calls run) (world run)
      end
  end.

Definition servicesListError : JsError :=
  mkError None "Could not fetch SMS Activate services list.".

Definition fetchSmsActivatePrices (w : W) : FetchRun W :=
  let run := withRetry getServicesList 1000%Q 200%Q (random 0) 3 w in
  match completion run with
  | Threw e => mkFetch (Threw e) (calls run) (world run)
  | Returned servicesResponse =>
      if String.eqb (list_status servicesResponse) "success" then
        let result := fetchServices (list_services servicesResponse) 1 []
                        (calls run) (world run) in
        mkFetch (Returned result.1.1) result.1.2 result.2
      else mkFetch (Threw (Some servicesListError)) (calls run) (world run)
  end.

End SmsActivateAdapter.

(** ** server.js: bookmarks *)

(** [l.splice(l.indexOf(x), 1)] for an [x] that occurs in [l]. *)
Fixpoint removeFirst (x : string) (l : list string) : list string :=
  match l with
  | [] => []
  | y :: r => if String.eqb y x then r else y :: removeFirst x r
  end.

(** The handler of [POST /api/user/bookmarks/toggle]: [None] is the reply
    with status 400 for a missing service id. *)
Definition toggleBookmark (serviceId : string) (bookmarkedServices : list string)
    : option (list string) :=
  if truthy serviceId then
    if bool_decide (serviceId ∈ bookmarkedServices)
    then Some (removeFirst serviceId bookmarkedServices)
    else Some (bookmarkedServices ++ [serviceId])%list
  else None.

(** ** server.js: the 5sim purchase path *)

(** [s.split(sep)] for a separator of one character. *)
Fixpoint splitOn (sep : ascii) (s : string) : list string :=
  match s with
  | EmptyString => [EmptyString]
  | String c r =>
      if Ascii.eqb c sep then EmptyString :: splitOn sep r
      else match splitOn sep r with
           | w :: ws => String c w :: ws
           | [] => [String c EmptyString]
           end
  end.

(** A missing array element interpolates as [undefined]. *)
Definition element (i : nat) (parts : list string) : string :=
  nth i parts "undefined".

(** [const [_, service, country_code, op] = serviceDetails.id.split('_')]
    and the path requested from 5sim; [operator] is the operator of the
    request body, [None] when it is absent. *)
Definition fiveSimPurchasePath (id : string) (operator : option string)
    : string :=
  let parts := splitOn "_" id in
  let service := element 1 parts in
  let country_code := element 2 parts in
  let op := element 3 parts in
  let purchaseOperator :=
    match operator with
    | Some o => if truthy o && negb (String.eqb o "any") then o else op
    | None => op
    end in
  "/user/buy/activation/" +:+ country_code +:+ "/" +:+ purchaseOperator
    +:+ "/" +:+ service.

(** ** server.js: checking and cancelling an order

    The two handlers act on the order they look up and on the balance of
    the user who owns it.  Store operations are taken to succeed and a
    handler runs without another one in between. *)

Record Order : Type := mkOrder {
  order_status : string;
  order_price : Q;
  order_provider : string;
  smsCode : option string
}.

Record Ledger : Type := mkLedger {
  balance : Q;
  order : Order
}.

(** How a request to a provider ends: with [response.data], or rejected,
    in which case [errorMessage] is
    [error.response?.data || error.message] when that is a string. *)
Inductive ProviderCall (A : Type) : Type :=
| Answered (data : A)
| Rejected (errorMessage : option string).
Arguments Answered {A} data.
Arguments Rejected {A} errorMessage.

(** The part of a status reply the handler reads: [data.status] and
    [data.sms], an array of [{ code }] when present. *)
Record StatusData : Type := mkStatusData {
  data_status : string;
  data_sms : option (list (option string))
}.

(** [needle] occurs in [hay]: [hay.includes(needle)]. *)
Fixpoint includes (needle hay : string) : bool :=
  String.prefix needle hay ||
  match hay with
  | EmptyString => false
  | String _ r => includes needle r
  end.

Definition isOneOf (statuses : list string) (st : string) : bool :=
  existsb (String.eqb st) statuses.

(** The reply of sms-activate to [getStatus], as the handler reads it. *)
Definition smsActivateStatus (responseText : string) : StatusData :=
  if String.prefix "STATUS_OK" responseText
  then mkStatusData "RECEIVED" (Some [nth_error (splitOn ":" responseText) 1])
  else if String.eqb responseText "STATUS_WAIT_CODE"
       then mkStatusData "PENDING" None
       else mkStatusData "FINISHED" None.

Definition withStatus (st : string) (o : Order) : Order :=
  mkOrder st (order_price o) (order_provider o) (smsCode o).

(** [$inc: { balance: internalOrder.price }] and the new status. *)
Definition refund (st : string) (l : Ledger) : Ledger :=
  mkLedger (balance l + order_price (order l))%Q (withStatus st (order l)).

(** The status changes of [GET /api/check-order/:id] once the provider has
    answered with [data]; [finishAcked] tells whether the [setStatus]
    request sent to sms-activate after a code was received went through.
    The result is the HTTP status of the reply and the new state. *)
Definition applyStatus (data : StatusData) (finishAcked : bool) (l : Ledger)
    : nat * Ledger :=
  let internalOrder := order l in
  (* [data.sms && data.sms.length > 0] and [data.sms[0].code] *)
  let hasSms := match data_sms data with Some (_ :: _) => true | _ => false end in
  let firstCode := match data_sms data with Some (c :: _) => c | _ => None end in
  if isOneOf ["PENDING"; "ACTIVE"] (order_status internalOrder) then
    if String.eqb (data_status data) "RECEIVED" && hasSms then
      let saved :=
        mkLedger (balance l)
          (mkOrder "RECEIVED" (order_price internalOrder)
             (order_provider internalOrder) firstCode) in
      if String.eqb (order_provider internalOrder) "sms-activate"
         && negb finishAcked
      then (400, saved) else (200, saved)
    else if String.eqb (data_status data) "TIMEOUT"
            || String.eqb (data_status data) "CANCELED"
    then (200, refund (data_status data) l)
    else if String.eqb (data_status data) "FINISHED"
    then (200, mkLedger (balance l) (withStatus "FINISHED" internalOrder))
    else (200, l)
  else (200, l).

Definition checkOrder (smsReply : ProviderCall string)
    (fiveSimReply : ProviderCall StatusData) (finishAcked : bool) (l : Ledger)
    : nat * Ledger :=
  if String.eqb (order_provider (order l)) "sms-activate" then
    match smsReply with
    | Answered responseText =>
        applyStatus (smsActivateStatus responseText) finishAcked l
    | Rejected _ => (400, l)
    end
  else
    match fiveSimReply with
    | Answered data => applyStatus data finishAcked l
    | Rejected _ => (400, l)
    end.

(** The [catch] of [POST /api/cancel-order/:id]. *)
Definition refundOnTimeout (errorMessage : option string) (l : Ledger)
    : nat * Ledger :=
  match errorMessage with
  | Some m =>
      if includes "TIMEOUT" (toUpperCase m)
         || includes "ORDER HAS ALREADY BEEN FINISHED" (toUpperCase m)
      then
        if negb (isOneOf ["CANCELED"; "RECEIVED"] (order_status (order l)))
        then (200, refund "TIMEOUT" l)
        else (400, l)
      else (400, l)
  | None => (400, l)
  end.

Definition cancelOrder (smsReply fiveSimReply : ProviderCall string)
    (l : Ledger) : nat * Ledger :=
  if isOneOf ["CANCELED"; "TIMEOUT"; "FINISHED"; "RECEIVED"]
       (order_status (order l))
  then (400, l)
  else if String.eqb (order_provider (order l)) "sms-activate" then
    match smsReply with
    | Answered data =>
        if String.eqb data "ACCESS_CANCEL" then (200, refund "CANCELED" l)
        else
          (* [throw new Error(response.data)] *)
          refundOnTimeout
            (Some (if truthy data then data else "An unknown error occurred")) l
    | Rejected errorMessage => refundOnTimeout errorMessage l
    end
  else
    match fiveSimReply with
    | Answered st =>
        (* [responseData.status] *)
        if String.eqb st "CANCELED" then (200, refund "CANCELED" l)
        else (200, l)
    | Rejected errorMessage => refundOnTimeout errorMessage l
    end.

(** A request of a client about one order, with the answers of the
    providers to it. *)
Inductive OrderRequest : Type :=
| CheckOrder (smsReply : ProviderCall string)
             (fiveSimReply : ProviderCall StatusData) (finishAcked : bool)
| CancelOrder (smsReply fiveSimReply : ProviderCall string).

Definition serve (l : Ledger) (request : OrderRequest) : Ledger :=
  match request with
  | CheckOrder smsReply fiveSimReply finishAcked =>
      (checkOrder smsReply fiveSimReply finishAcked l).2
  | CancelOrder smsReply fiveSimReply =>
      (cancelOrder smsReply fiveSimReply l).2
  end.

(** ** A well-formed grouping

    The keys of the groups are distinct, no group is empty, and a group
    holds the documents of its key. *)
Definition wellGrouped (m : list (string * list Service)) : Prop :=
  NoDup m.*1 /\
  forall k vs, (k, vs) ∈ m -> vs ≠ [] /\ forall f, f ∈ vs -> mapKey f = k.

Local Open Scope Q_scope.

(** ** Sample data

    Small tables and records used to run the definitions.  Persian names
    are written in transliteration. *)

Definition sampleCountries : JsObject := [("0", "Russia"); ("1", "Ukraine")].
Definition sampleTranslations : JsObject := [("russia", "Rusiye")].
Definition sampleCodes : JsObject := [("russia", "RU")].

Definition sampleResolver : string -> option CountryData :=
  getCountryDataByCanonicalName sampleCountries sampleTranslations sampleCodes.

Definition samplePriority : gmap string PriorityInfo :=
  {[ "telegram" := mkPriority (Some "Telegeram") (Some 1%Z) ]}.

(** 5sim: [{ russia: { telegram: { any: { cost: 10, count: 100, rate: 98 } } } }] *)
Definition fiveSimTelegram : RawService :=
  mkRaw "5sim" "russia" "telegram" None "any" (Some 10) 100 98.

(** The same 5sim offering at the cost 0.28. *)
Definition fiveSimTelegramCheap : RawService :=
  mkRaw "5sim" "russia" "telegram" None "any" (Some (28 # 100)) 100 98.

(** sms-activate: service [{ code: 'tg', name: 'Telegram' }] in Russia. *)
Definition smsTelegram : RawService :=
  mkRaw "sms-activate" "Russia" "tg" (Some "Telegram") "any" (Some (1 # 2)) 50 0.

(** The same sms-activate service and country reported a second time, at
    another price. *)
Definition smsTelegramAgain : RawService :=
  mkRaw "sms-activate" "Russia" "tg" (Some "Telegram") "any" (Some (3 # 5)) 0 0.

(** An offering in a country the resolver does not know. *)
Definition fiveSimAtlantis : RawService :=
  mkRaw "5sim" "atlantis" "telegram" None "any" (Some 10) 5 0.

(** A translation table keyed by display names instead of canonical names. *)
Definition displayKeyedCountries : JsObject := [("0", "South Africa")].
Definition displayKeyedTranslations : JsObject :=
  [("South Africa", "Afriqa-ye Jonubi")].
Definition displayKeyedCodes : JsObject := [("southafrica", "ZA")].

(** Operations for the retry executor; the world is the number of calls
    made so far.  The first is the mock of the updater's own test: two
    rejections with status 500, then the data. *)
Definition failsTwice (callCount : nat) : (string + JsError) * nat :=
  if (callCount <? 2)%nat
  then (inr (mkError (Some 500%Z) "Request failed with status code 500"),
        S callCount)
  else (inl "prices", S callCount).

Definition alwaysDown (callCount : nat) : (string + JsError) * nat :=
  (inr (mkError (Some 500%Z) "Request failed with status code 500"),
   S callCount).

(** Status 503 on the first call, 404 on every later one. *)
Definition downThenMissing (callCount : nat) : (string + JsError) * nat :=
  match callCount with
  | O => (inr (mkError (Some 503%Z) "Service Unavailable"), 1%nat)
  | S _ => (inr (mkError (Some 404%Z) "Not Found"), S callCount)
  end.

(** Answers of sms-activate for the adapter: two services are listed,
    prices are known for [tg] in the countries 0 and 999, and the request
    for [wa] is rejected with status 404. *)
Definition sampleGetServicesList (sent : nat) : (ServicesList + JsError) * nat :=
  (inl (mkServicesList "success"
          [mkSmsService "tg" (Some "Telegram");
           mkSmsService "wa" (Some "WhatsApp")]),
   S sent).

Definition sampleGetTopCountries (code : string) (sent : nat)
    : (list (string * CountryPrice) + JsError) * nat :=
  if String.eqb code "tg"
  then (inl [("0", mkCountryPrice (Some (1 # 2)) 50);
             ("999", mkCountryPrice (Some (3 # 4)) 7)], S sent)
  else (inr (mkError (Some 404%Z) "Not Found"), S sent).

(** * Properties *)

Local Close Scope Q_scope.

(** ** Binary64 rounding *)

Local Open Scope Q_scope.

Lemma twoTo_pos (e : Z) : 0 < 2 ^ e.
Proof. apply Qpower_0_lt. reflexivity. Qed.

Lemma twoTo_plus (a b : Z) : 2 ^ (a + b) == 2 ^ a * 2 ^ b.
Proof. apply Qpower_plus. discriminate. Qed.

Lemma twoTo_inject (k : Z) : (0 <= k)%Z -> 2 ^ k == inject_Z (2 ^ k).
Proof. intros Hk. symmetry. exact (Zpower_Qpower 2 k Hk). Qed.

Lemma Zfrac_le (a b c d : Z) :
  (0 < a <= c)%Z -> (0 < d <= b)%Z ->
  inject_Z a / inject_Z b <= inject_Z c / inject_Z d.
Proof.
  intros Ha Hd.
  apply Qle_shift_div_r; [rewrite <- (Zlt_Qlt 0); lia|].
  assert (Heq : inject_Z c / inject_Z d * inject_Z b
                == inject_Z c * inject_Z b / inject_Z d).
  { field. intros H. apply (inject_Z_injective d 0) in H. lia. }
  rewrite Heq.
  apply Qle_shift_div_l; [rewrite <- (Zlt_Qlt 0); lia|].
  rewrite <- !inject_Z_mult, <- Zle_Qle. nia.
Qed.

(** [binade q] is not above the logarithm of [q]. *)
Lemma binade_le (q : Q) : 0 < q -> 2 ^ binade q <= q.
Proof.
  intros Hq. unfold binade.
  set (l := (Z.log2 (Qnum q) - Z.log2 (Z.pos (Qden q)))%Z).
  destruct (Qle_bool (2 ^ l) q) eqn:Hle; [apply Qle_bool_iff; exact Hle|].
  destruct q as [n d]. cbn [Qnum Qden] in l.
  assert (Hn : (0 < n)%Z) by (unfold Qlt in Hq; cbn in Hq; lia).
  pose proof (Z.log2_spec n Hn) as [Hn1 _].
  pose proof (Z.log2_spec (Z.pos d) eq_refl) as [_ Hd2].
  pose proof (Z.log2_nonneg n). pose proof (Z.log2_nonneg (Z.pos d)).
  replace (l - 1)%Z with (Z.log2 n - Z.succ (Z.log2 (Z.pos d)))%Z
    by (unfold l; lia).
  rewrite Qpower_minus by discriminate.
  rewrite !twoTo_inject by lia.
  rewrite (Qmake_Qdiv n d).
  apply Zfrac_le; lia.
Qed.

Lemma nearestEven_close (s : Q) :
  s - (1 # 2) <= inject_Z (nearestEven s) <= s + (1 # 2).
Proof.
  unfold nearestEven; cbv zeta.
  pose proof (Qfloor_le s) as Hlo. pose proof (Qlt_floor s) as Hhi.
  rewrite inject_Z_plus in Hhi. change (inject_Z 1) with 1 in Hhi.
  destruct (Qcompare_spec (s - inject_Z (Qfloor s)) (1 # 2)) as [He|Hl|Hg].
  - destruct (Z.even (Qfloor s));
      [|rewrite inject_Z_plus; change (inject_Z 1) with 1]; lra.
  - lra.
  - rewrite inject_Z_plus. change (inject_Z 1) with 1. lra.
Qed.

(** Rounding moves a number by at most the fraction [unitRoundoff] of
    itself. *)
Lemma round64_error (q : Q) : Qabs (round64 q - q) <= Qabs q * unitRoundoff.
Proof.
  unfold round64. destruct (Qeq_bool q 0) eqn:Hz.
  - apply Qeq_bool_iff in Hz. rewrite Hz. vm_compute. discriminate.
  - apply Qeq_bool_neq in Hz. rewrite Qred_correct.
    assert (Ha : 0 < Qabs q).
    { pose proof (Qabs_nonneg q) as H.
      apply Qle_lt_or_eq in H as [H|H]; [exact H|].
      exfalso. apply Hz. symmetry in H. revert H.
      apply Qabs_case; intros; lra. }
    set (e := (binade (Qabs q) - 52)%Z).
    pose proof (binade_le _ Ha) as Hb.
    replace (binade (Qabs q)) with (e + 52)%Z in Hb by (unfold e; lia).
    rewrite twoTo_plus in Hb.
    pose proof (twoTo_pos e) as He.
    pose proof (nearestEven_close (q / 2 ^ e)) as [H1 H2].
    set (m := inject_Z (nearestEven (q / 2 ^ e))) in *.
    assert (Hs : q == q / 2 ^ e * 2 ^ e) by (field; lra).
    set (s := q / 2 ^ e) in *.
    change (2 ^ 52) with (4503599627370496 # 1) in Hb.
    unfold unitRoundoff. change (1 # 2 ^ 53) with (1 # 9007199254740992).
    apply Qabs_Qle_condition.
    assert (Hd : m * 2 ^ e - q == (m - s) * 2 ^ e) by (rewrite Hs at 1; ring).
    rewrite Hd. split; nra.
Qed.

Lemma round64_bounds (q : Q) :
  0 < q ->
  q * (1 - unitRoundoff) <= round64 q <= q * (1 + unitRoundoff).
Proof.
  intros Hq. pose proof (round64_error q) as H.
  rewrite (Qabs_pos q) in H by lra.
  apply Qabs_Qle_condition in H. lra.
Qed.

(** Rounding keeps the sign. *)
Lemma round64_pos (q : Q) : 0 < q -> 0 < round64 q.
Proof.
  intros Hq. destruct (round64_bounds q Hq) as [H _].
  assert (0 < q * (1 - unitRoundoff)); [|lra].
  apply Qmult_lt_0_compat; [exact Hq|reflexivity].
Qed.

Lemma round64_neg (q : Q) : q < 0 -> round64 q < 0.
Proof.
  intros Hq. pose proof (round64_error q) as H.
  rewrite (Qabs_neg q) in H by lra.
  apply Qabs_Qle_condition in H.
  assert (0 < - q * (1 - unitRoundoff)); [|lra].
  apply Qmult_lt_0_compat; [lra|reflexivity].
Qed.

Lemma round64_zero (q : Q) : q == 0 -> round64 q = 0.
Proof. intros H. unfold round64. apply Qeq_bool_iff in H. by rewrite H. Qed.

(** Integers below [2 ^ 53] are doubles. *)
Lemma nearestEven_integer (s : Q) (z : Z) : s == inject_Z z -> nearestEven s = z.
Proof.
  intros Hs. unfold nearestEven; cbv zeta.
  assert (Hf : Qfloor s = z) by (rewrite Hs; apply Qfloor_Z).
  rewrite Hf.
  assert (Hlt : s - inject_Z z < 1 # 2) by (rewrite Hs; lra).
  destruct (Qcompare_spec (s - inject_Z z) (1 # 2)); [lra|done|lra].
Qed.

Lemma twoTo_le (a b : Z) : (a <= b)%Z -> 2 ^ a <= 2 ^ b.
Proof. intros H. apply Qpower_le_compat_l; [exact H|discriminate]. Qed.

Lemma round64_integer (n : Z) :
  (Z.abs n < 2 ^ 53)%Z -> round64 (inject_Z n) == inject_Z n.
Proof.
  intros Hn. unfold round64.
  destruct (Qeq_bool (inject_Z n) 0) eqn:Hz.
  - apply Qeq_bool_iff in Hz. by rewrite Hz.
  - apply Qeq_bool_neq in Hz. rewrite Qred_correct.
    assert (Habs : Qabs (inject_Z n) = inject_Z (Z.abs n)) by reflexivity.
    rewrite Habs.
    assert (Ha : 0 < inject_Z (Z.abs n)).
    { rewrite <- (Zlt_Qlt 0). destruct (decide (n = 0%Z)) as [->|]; [|lia].
      exfalso. by apply Hz. }
    pose proof (binade_le _ Ha) as Hb.
    set (e := (binade (inject_Z (Z.abs n)) - 52)%Z).
    assert (He : (e <= 0)%Z).
    { destruct (decide (e <= 0)%Z) as [|Hgt]; [done|exfalso].
      assert (H53 : 2 ^ 53 <= 2 ^ binade (inject_Z (Z.abs n)))
        by (apply twoTo_le; unfold e in Hgt; lia).
      assert (Hlt : inject_Z (Z.abs n) < 2 ^ 53).
      { rewrite (twoTo_inject 53) by lia. by rewrite <- Zlt_Qlt. }
      lra. }
    assert (Hs : inject_Z n / 2 ^ e == inject_Z (n * 2 ^ (- e))).
    { rewrite inject_Z_mult, <- (twoTo_inject (- e)) by lia.
      rewrite Qpower_opp. reflexivity. }
    rewrite (nearestEven_integer _ _ Hs).
    rewrite inject_Z_mult, <- (twoTo_inject (- e)) by lia.
    rewrite Qpower_opp. field. pose proof (twoTo_pos e). lra.
Qed.

(** Two numbers at most one apart have ceilings at most one apart. *)
Lemma ceil_close (x X : Q) :
  X - 1 <= x <= X + 1 -> (Qceiling X - 1 <= Qceiling x <= Qceiling X + 1)%Z.
Proof.
  intros [Hlo Hhi].
  pose proof (Qle_ceiling x) as Hcx. pose proof (Qceiling_lt x) as Hcx'.
  pose proof (Qle_ceiling X) as HcX. pose proof (Qceiling_lt X) as HcX'.
  unfold Z.sub in Hcx', HcX'. rewrite inject_Z_plus in Hcx', HcX'.
  change (inject_Z (- (1))) with (-1 # 1) in Hcx', HcX'.
  split.
  - assert (H : inject_Z (Qceiling X) < inject_Z (Qceiling x) + 2) by lra.
    rewrite <- (inject_Z_plus _ 2), <- Zlt_Qlt in H. lia.
  - assert (H : inject_Z (Qceiling x) < inject_Z (Qceiling X) + 2) by lra.
    rewrite <- (inject_Z_plus _ 2), <- Zlt_Qlt in H. lia.
Qed.

(** The double product of two numbers has the sign of their product. *)
Lemma mul64_pos (a b : Q) : 0 < a * b -> 0 < mul64 (round64 a) (round64 b).
Proof.
  intros Hab. apply round64_pos.
  destruct (Q_dec a 0) as [[Ha|Ha]|Ha].
  - assert (Hb : b < 0) by nra.
    pose proof (round64_neg a Ha). pose proof (round64_neg b Hb). nra.
  - assert (Hb : 0 < b) by nra.
    pose proof (round64_pos a Ha). pose proof (round64_pos b Hb). nra.
  - rewrite Ha in Hab. lra.
Qed.

Lemma mul64_nonpos (a b : Q) : a * b <= 0 -> mul64 (round64 a) (round64 b) <= 0.
Proof.
  intros Hab. unfold mul64.
  assert (Hsign : round64 a * round64 b <= 0).
  { destruct (Q_dec a 0) as [[Ha|Ha]|Ha].
    - pose proof (round64_neg a Ha).
      destruct (Q_dec b 0) as [[Hb|Hb]|Hb].
      + nra.
      + pose proof (round64_pos b Hb). nra.
      + rewrite (round64_zero b Hb). lra.
    - pose proof (round64_pos a Ha).
      destruct (Q_dec b 0) as [[Hb|Hb]|Hb].
      + pose proof (round64_neg b Hb). nra.
      + nra.
      + rewrite (round64_zero b Hb). lra.
    - rewrite (round64_zero a Ha). lra. }
  apply Qle_lt_or_eq in Hsign as [Hlt|Heq].
  - apply Qlt_le_weak. by apply round64_neg.
  - rewrite (round64_zero _ Heq). lra.
Qed.

Local Close Scope Q_scope.

(** ** Strings and canonical names *)

Lemma lowerChar_idem c : lowerChar (lowerChar c) = lowerChar c.
Proof. by destruct c as [[] [] [] [] [] [] [] []]. Qed.

Lemma lowerChar_canonical c :
  isLower c || isDigit c = true -> lowerChar c = c.
Proof. by destruct c as [[] [] [] [] [] [] [] []]. Qed.

Lemma space_not_canonical c :
  isSpace c = true -> isLower c || isDigit c = false.
Proof. by destruct c as [[] [] [] [] [] [] [] []]. Qed.

Lemma toLowerCase_idem s : toLowerCase (toLowerCase s) = toLowerCase s.
Proof.
  induction s as [|c r IH]; [done|].
  cbn. rewrite lowerChar_idem. f_equal. exact IH.
Qed.

Lemma filterString_trimStart p s :
  (forall c, isSpace c = true -> p c = false) ->
  filterString p (trimStart s) = filterString p s.
Proof.
  intros Hp. induction s as [|c r IH]; [done|].
  cbn. destruct (isSpace c) eqn:Hc; [|done].
  by rewrite (Hp c Hc).
Qed.

Lemma filterString_trimEnd p s :
  (forall c, isSpace c = true -> p c = false) ->
  filterString p (trimEnd s) = filterString p s.
Proof.
  intros Hp. induction s as [|c r IH]; [done|].
  cbn. destruct (trimEnd r) as [|c' r'] eqn:Hr.
  - cbn in IH. rewrite <- IH.
    destruct (isSpace c) eqn:Hc; [by rewrite (Hp c Hc)|done].
  - change (filterString p (String c (String c' r')))
      with (if p c then String c (filterString p (String c' r'))
            else filterString p (String c' r')).
    by rewrite IH.
Qed.

(** Canonical names are fixed points of canonicalisation. *)
Lemma generateCanonicalName_idem s :
  generateCanonicalName (generateCanonicalName s) = generateCanonicalName s.
Proof.
  unfold generateCanonicalName, toLowerCase.
  induction s as [|c r IH]; [done|].
  cbn. destruct (isLower (lowerChar c) || isDigit (lowerChar c)) eqn:Hc;
    [|exact IH].
  cbn. rewrite (lowerChar_canonical _ Hc), Hc. f_equal. exact IH.
Qed.

(** The clean-up [runUpdate] applies before calling the resolver does not
    change the canonical key. *)
Lemma generateCanonicalName_clean s :
  generateCanonicalName (trim (toLowerCase s)) = generateCanonicalName s.
Proof.
  unfold generateCanonicalName, trim.
  set (p := fun c => isLower c || isDigit c).
  assert (Hp : forall c, isSpace c = true -> p c = false)
    by apply space_not_canonical.
  transitivity (filterString p (toLowerCase (toLowerCase s))).
  2: by rewrite toLowerCase_idem.
  generalize (toLowerCase s). intros t.
  rewrite <- (filterString_trimStart p (toLowerCase t)) by done.
  rewrite <- (filterString_trimEnd p (trimStart (toLowerCase t))) by done.
  f_equal.
  (* lowering commutes with both trims *)
  assert (Hsp : forall c, isSpace (lowerChar c) = isSpace c)
    by (by intros [[] [] [] [] [] [] [] []]).
  assert (Hs : forall u, toLowerCase (trimStart u) = trimStart (toLowerCase u)).
  { induction u as [|c r IH]; [done|]. cbn. rewrite Hsp.
    destruct (isSpace c); [exact IH|done]. }
  assert (He : forall u, toLowerCase (trimEnd u) = trimEnd (toLowerCase u)).
  { induction u as [|c r IH]; [done|]. cbn. rewrite <- IH, Hsp.
    destruct (trimEnd r); cbn; [by destruct (isSpace c)|done]. }
  by rewrite He, Hs.
Qed.

(** ** The country resolver *)

Lemma jsGet_elem (o : JsObject) k v : jsGet o k = Some v -> (k, v) ∈ o.
Proof.
  induction o as [|[k' v'] r IH]; cbn; [done|].
  destruct (String.eqb_spec k' k) as [->|_].
  - intros [= ->]. apply elem_of_cons. by left.
  - intros H. apply elem_of_cons. right. by apply IH.
Qed.

Lemma fold_left_invariant {A B : Type} (f : A -> B -> A) (Inv : A -> Prop)
    (l : list B) (a : A) :
  (forall m x, x ∈ l -> Inv m -> Inv (f m x)) -> Inv a -> Inv (fold_left f l a).
Proof.
  revert a. induction l as [|x l IH]; intros a Hstep Ha; [done|].
  cbn. apply IH.
  - intros m y Hy. apply Hstep. apply elem_of_cons. by right.
  - apply Hstep; [apply elem_of_cons; by left|done].
Qed.

Section CountryMapperFacts.

Variable smsActivateCountries countryTranslations countryCodes : JsObject.

Abbreviation phase1 := (addProviderCountry countryTranslations countryCodes).
Abbreviation phase2 := (addTranslatedCountry countryCodes).
Abbreviation theMap :=
  (unifiedCountryMap smsActivateCountries countryTranslations countryCodes).

(** What every stored entry is made of. *)
Abbreviation wellSourced m :=
  (forall c e, m !! c = Some e ->
    truthy (code e) = true /\
    jsGet countryCodes c = Some (code e) /\
    exists key, (key, persian e) ∈ countryTranslations /\
                generateCanonicalName key = c).

Lemma phase1_wellSourced m entry :
  wellSourced m -> wellSourced (phase1 m entry).
Proof.
  intros Hm. unfold addProviderCountry.
  set (c0 := generateCanonicalName entry.2).
  destruct (jsGet countryTranslations c0) as [p|] eqn:Hp; [|done].
  destruct (jsGet countryCodes c0) as [cd|] eqn:Hcd; [|done].
  destruct (truthy p && truthy cd) eqn:Ht; [|done].
  apply andb_true_iff in Ht as [_ Hc].
  intros c e. rewrite lookup_insert.
  case_decide as Heq; [|by apply Hm].
  intros [= <-]. subst c. cbn. repeat split; [done..|].
  exists c0. split; [by apply jsGet_elem|apply generateCanonicalName_idem].
Qed.

Lemma phase2_wellSourced m entry :
  entry ∈ countryTranslations -> wellSourced m -> wellSourced (phase2 m entry).
Proof.
  intros Hin Hm. unfold addTranslatedCountry.
  set (c0 := generateCanonicalName entry.1).
  destruct (m !! c0) eqn:Hc0; [done|].
  destruct (jsGet countryCodes c0) as [cd|] eqn:Hcd; [|done].
  destruct (truthy cd) eqn:Ht; [|done].
  intros c e. rewrite lookup_insert.
  case_decide as Heq; [|by apply Hm].
  intros [= <-]. subst c. cbn. repeat split; [done..|].
  exists entry.1. split; [by destruct entry|done].
Qed.

Lemma unifiedCountryMap_wellSourced : wellSourced theMap.
Proof.
  unfold unifiedCountryMap.
  apply fold_left_invariant.
  - intros m x Hx. by apply phase2_wellSourced.
  - apply fold_left_invariant.
    + intros m x _. apply phase1_wellSourced.
    + intros c e. by rewrite lookup_empty.
Qed.

(** The second loop never removes a key, and stores every translation
    key whose canonical name has a truthy code. *)
Lemma phase2_fold_keeps l m c :
  is_Some (m !! c) -> is_Some (fold_left phase2 l m !! c).
Proof.
  revert m. induction l as [|x l IH]; intros m Hm; [done|].
  cbn. apply IH. unfold addTranslatedCountry.
  destruct (m !! generateCanonicalName x.1) eqn:Hx; [done|].
  destruct (jsGet countryCodes _) as [cd|]; [|done].
  destruct (truthy cd); [|done].
  rewrite lookup_insert. case_decide; [by eexists|done].
Qed.

Lemma phase2_fold_stores l m key v :
  (key, v) ∈ l ->
  truthyProp (jsGet countryCodes (generateCanonicalName key)) = true ->
  is_Some (fold_left phase2 l m !! generateCanonicalName key).
Proof.
  revert m. induction l as [|x l IH]; intros m Hin Hcode.
  - by apply elem_of_nil in Hin.
  - apply elem_of_cons in Hin as [<-|Hin]; [|by apply IH].
    cbn [fold_left]. apply phase2_fold_keeps.
    unfold addTranslatedCountry. cbn [fst snd].
    destruct (m !! generateCanonicalName key) eqn:Hx; [by rewrite Hx|].
    destruct (jsGet countryCodes _) as [cd|]; [|done].
    cbn in Hcode. rewrite Hcode.
    rewrite lookup_insert_eq. by eexists.
Qed.

(** Membership in the unified map, in terms of the two tables alone. *)
Lemma unifiedCountryMap_domain c :
  is_Some (theMap !! c) <->
  truthyProp (jsGet countryCodes c) = true /\
  exists key v, (key, v) ∈ countryTranslations /\
                generateCanonicalName key = c.
Proof.
  split.
  - intros [e He].
    destruct (unifiedCountryMap_wellSourced c e He) as (Ht & Hc & key & Hk & Hg).
    split; [by rewrite Hc|]. by exists key, (persian e).
  - intros (Hcode & key & v & Hin & <-).
    by apply (phase2_fold_stores _ _ key v).
Qed.

End CountryMapperFacts.

(** ** Grouping *)

Lemma flattenGroups_pushGroup m k v :
  flattenGroups (pushGroup m k v) ≡ₚ flattenGroups m ++ [v].
Proof.
  unfold flattenGroups.
  induction m as [|[k' vs] r IH]; [done|].
  cbn [pushGroup]. destruct (String.eqb k' k); cbn [map concat snd].
  - rewrite <- !app_assoc. f_equiv. apply Permutation_app_comm.
  - rewrite IH. by rewrite app_assoc.
Qed.

Section RunUpdateFacts.

Variable usdToTomanRate rubToTomanRate : Q.
Variable servicePriority : gmap string PriorityInfo.
Variable getCountryData : string -> option CountryData.

Abbreviation normalize' :=
  (normalize usdToTomanRate rubToTomanRate servicePriority getCountryData).
Abbreviation processRecord' :=
  (processRecord usdToTomanRate rubToTomanRate servicePriority getCountryData).

Lemma serviceMap_processRecord st s :
  serviceMap (processRecord' st s) =
  match normalize' s with
  | Some f => pushGroup (serviceMap st) (mapKey f) f
  | None => serviceMap st
  end.
Proof.
  unfold processRecord.
  destruct (normalize' s); by destruct (notesUnknown servicePriority s).
Qed.

Lemma unknownServiceCodes_processRecord st s :
  unknownServiceCodes (processRecord' st s) =
  if notesUnknown servicePriority s
  then {[service s]} ∪ unknownServiceCodes st
  else unknownServiceCodes st.
Proof.
  unfold processRecord.
  destruct (normalize' s); by destruct (notesUnknown servicePriority s).
Qed.

(** The groups built by the loop depend on the groups it starts from and
    on nothing else of the loop state. *)
Lemma serviceMap_fold_ext l st st' :
  serviceMap st = serviceMap st' ->
  serviceMap (fold_left processRecord' l st) =
  serviceMap (fold_left processRecord' l st').
Proof.
  revert st st'. induction l as [|s l IH]; intros st st' Heq; [done|].
  cbn [fold_left]. apply IH.
  by rewrite !serviceMap_processRecord, Heq.
Qed.

Lemma serviceMap_fold_skip before s after st :
  normalize' s = None ->
  serviceMap (fold_left processRecord' (before ++ s :: after) st) =
  serviceMap (fold_left processRecord' (before ++ after) st).
Proof.
  intros Hs. rewrite !fold_left_app. cbn [fold_left].
  apply serviceMap_fold_ext.
  by rewrite serviceMap_processRecord, Hs.
Qed.

(** Flattening the groups returns the documents that were pushed, each
    once. *)
Lemma flattenGroups_fold l st :
  flattenGroups (serviceMap (fold_left processRecord' l st))
  ≡ₚ flattenGroups (serviceMap st) ++ omap normalize' l.
Proof.
  revert st. induction l as [|s l IH]; intros st.
  - cbn. by rewrite app_nil_r.
  - cbn [fold_left]. rewrite IH, serviceMap_processRecord.
    cbn [omap list_omap]. destruct (normalize' s) as [f|].
    + rewrite flattenGroups_pushGroup. by rewrite <- app_assoc.
    + done.
Qed.

Lemma formattedServices_perm raw :
  formattedServices usdToTomanRate rubToTomanRate servicePriority
    getCountryData raw ≡ₚ omap normalize' raw.
Proof. unfold formattedServices, normalizeAll. by rewrite flattenGroups_fold. Qed.

Lemma elem_of_formattedServices raw f :
  f ∈ formattedServices usdToTomanRate rubToTomanRate servicePriority
        getCountryData raw
  <-> exists s, s ∈ raw /\ normalize' s = Some f.
Proof. rewrite formattedServices_perm. apply list_elem_of_omap. Qed.

Lemma normalize_Some s f :
  normalize' s = Some f ->
  exists countryData,
    getCountryData (cleanCountry s) = Some countryData /\
    (0 < basePriceToman usdToTomanRate rubToTomanRate s)%Q /\
    f = formattedService usdToTomanRate rubToTomanRate servicePriority
          s countryData.
Proof.
  unfold normalize.
  destruct (truthy _); [|done].
  destruct (getCountryData _) as [cd|]; [|done].
  destruct (Qle_bool _ 0) eqn:Hle; [done|].
  intros [= <-]. exists cd. repeat split.
  apply Qnot_le_lt. intros Hq. apply Qle_bool_iff in Hq. congruence.
Qed.

End RunUpdateFacts.

Lemma Qceiling_pos q : (0 < q)%Q -> (0 < Qceiling q)%Z.
Proof.
  intros Hq. rewrite Zlt_Qlt.
  eapply Qlt_le_trans; [exact Hq|apply Qle_ceiling].
Qed.

(** The loop's test [basePriceToman <= 0], made on the double, is the test
    on the exact product. *)
Lemma basePriceDouble_sign usdToTomanRate rubToTomanRate s :
  Qle_bool (basePriceDouble usdToTomanRate rubToTomanRate s) 0
  = Qle_bool (basePriceToman usdToTomanRate rubToTomanRate s) 0.
Proof.
  unfold basePriceDouble, basePriceToman.
  destruct (String.eqb _ _).
  - destruct (Qle_bool (_ * usdToTomanRate) 0) eqn:Hle.
    + apply Qle_bool_iff, mul64_nonpos. by apply Qle_bool_iff.
    + apply not_true_is_false. intros H%Qle_bool_iff.
      assert (Hpos : (0 < numberOrZero (price s) * usdToTomanRate)%Q).
      { apply Qnot_le_lt. intros Hq%Qle_bool_iff. congruence. }
      apply mul64_pos in Hpos. lra.
  - destruct (Qle_bool (_ * rubToTomanRate) 0) eqn:Hle.
    + apply Qle_bool_iff, mul64_nonpos. by apply Qle_bool_iff.
    + apply not_true_is_false. intros H%Qle_bool_iff.
      assert (Hpos : (0 < numberOrZero (price s) * rubToTomanRate)%Q).
      { apply Qnot_le_lt. intros Hq%Qle_bool_iff. congruence. }
      apply mul64_pos in Hpos. lra.
Qed.

Lemma finalPriceToman_pos usdToTomanRate rubToTomanRate s :
  (0 < basePriceToman usdToTomanRate rubToTomanRate s)%Q ->
  (0 < finalPriceToman usdToTomanRate rubToTomanRate s)%Z.
Proof.
  intros Hbase. unfold finalPriceToman. apply Qceiling_pos.
  apply round64_pos. apply Qmult_lt_0_compat; [|reflexivity].
  unfold basePriceDouble, basePriceToman in *.
  destruct (String.eqb _ _); by apply mul64_pos.
Qed.

(** ** The retry executor *)

Lemma retryable_iff e :
  retryable e = true <->
  status e = Some 429%Z \/ exists st, status e = Some st /\ (500 <= st)%Z.
Proof.
  unfold retryable. destruct (status e) as [st|].
  - rewrite orb_true_iff, Z.eqb_eq, Z.leb_le. split.
    + intros [->|H]; [by left|right; eauto].
    + intros [[= ->]|(st' & [= <-] & H)]; [by left|by right].
  - split; [done|]. by intros [|(? & ? & _)].
Qed.

Section WithRetryFacts.

Context {W R : Type}.
Variable fn : W -> (R + JsError) * W.
Variable delay jitter : Q.
Variable random : nat -> Q.

Abbreviation loop := (retryLoop fn delay jitter random).

Lemma worldBefore_S k w :
  worldBefore fn (S k) w = worldBefore fn k (fn w).2.
Proof. unfold worldBefore. by rewrite Nat.iter_succ_r. Qed.

Lemma retryLoop_first remaining i lastError w :
  is_Some (attempts (loop (S remaining) i lastError w) !! 0%nat).
Proof.
  cbn. destruct (fn w) as [[r|e] w']; [by eexists|].
  destruct (retryable e); by eexists.
Qed.

(** One failing attempt inside a run. *)
Lemma retryLoop_failing_attempt remaining i lastError w k e :
  attempts (loop remaining i lastError w) !! k = Some (inr e) ->
  (retryable e = true ->
     sleeps (loop remaining i lastError w) !! k
       = Some (waitTime delay jitter random (i + k)) /\
     (S k < remaining ->
        is_Some (attempts (loop remaining i lastError w) !! S k))) /\
  (retryable e = false ->
     completion (loop remaining i lastError w) = Threw (Some e) /\
     calls (loop remaining i lastError w) = S k /\
     sleeps (loop remaining i lastError w) !! k = None).
Proof.
  revert i lastError w k.
  induction remaining as [|n IH]; intros i lastError w k; [done|].
  cbn [retryLoop]. destruct (fn w) as [[r|error] w'].
  { destruct k as [|[|k]]; by cbn. }
  destruct (retryable error) eqn:Herr.
  - destruct k as [|k]; cbn -[retryLoop].
    + intros [= <-]. split; [|congruence].
      intros _. rewrite Nat.add_0_r. split; [done|].
      intros Hlt. destruct n as [|n]; [lia|]. apply retryLoop_first.
    + intros Hk. destruct (IH (S i) (Some error) w' k Hk) as [Hretry Hfatal].
      split.
      * intros He. destruct (Hretry He) as [Hs Hnext].
        rewrite Nat.add_succ_r. split; [exact Hs|].
        intros Hlt. apply Hnext. lia.
      * intros He. destruct (Hfatal He) as (Hc & Hn & Hs).
        unfold calls in *. cbn -[retryLoop]. by rewrite Hn.
  - destruct k as [|[|k]]; cbn; [|done..].
    intros [= <-]. split; [congruence|done].
Qed.

(** Persistent retryable failure: the loop runs to its bound and throws
    the error of its last iteration. *)
Lemma retryLoop_exhausted remaining i lastError w :
  (forall k, k < remaining ->
     exists e, (fn (worldBefore fn k w)).1 = inr e /\ retryable e = true) ->
  calls (loop remaining i lastError w) = remaining /\
  completion (loop remaining i lastError w)
    = Threw (match remaining with
             | O => lastError
             | S n => match (fn (worldBefore fn n w)).1 with
                      | inr e => Some e
                      | inl _ => None
                      end
             end).
Proof.
  revert i lastError w.
  induction remaining as [|n IH]; intros i lastError w Hfail; [done|].
  destruct (Hfail 0 ltac:(lia)) as (e & He & Hr). cbn in He.
  cbn [retryLoop]. destruct (fn w) as [[r|error] w'] eqn:Hfn; [done|].
  cbn in He. injection He as ->. rewrite Hr.
  destruct (IH (S i) (Some e) w') as [Hcalls Hcompl].
  { intros k Hk. destruct (Hfail (S k) ltac:(lia)) as (e' & He' & Hr').
    rewrite worldBefore_S, Hfn in He'. eauto. }
  unfold calls in *. cbn -[retryLoop]. split; [by rewrite Hcalls|].
  rewrite Hcompl. destruct n as [|m].
  - cbn. by rewrite Hfn.
  - by rewrite worldBefore_S, Hfn.
Qed.

End WithRetryFacts.

(** ** The publisher *)

Lemma live_ne_shadow : live ≠ shadow.
Proof. done. Qed.

Lemma renameCollection_moves from to (db : gmap string (list Service)) docs :
  db !! from = Some docs -> db !! to = None ->
  renameCollection from to db = Some (<[to := docs]> (delete from db)).
Proof. intros Hfrom Hto. unfold renameCollection. by rewrite Hfrom, Hto. Qed.

Section PublisherFacts.

Variable validates : Service -> bool.
Variable formatted : list Service.
Variable db : gmap string (list Service).

Abbreviation accepted := (filter (fun d => validates d = true) formatted).
Abbreviation inserted :=
  (insertMany validates shadow formatted (deleteMany shadow db)).
Abbreviation dropped := (default inserted (dropCollection live inserted)).
Abbreviation stateAfter n :=
  (publishRun validates formatted n (mkPublish Connected db)).

Lemma inserted_shadow : inserted !! shadow = Some accepted.
Proof.
  unfold insertMany, deleteMany. rewrite lookup_insert_eq, lookup_alter.
  case_decide; [|done]. by destruct (db !! shadow).
Qed.

Lemma inserted_live : inserted !! live = db !! live.
Proof.
  unfold insertMany, deleteMany.
  rewrite lookup_insert_ne by done. rewrite lookup_alter.
  by case_decide.
Qed.

Lemma dropped_live : dropped !! live = None.
Proof.
  unfold dropCollection. destruct (inserted !! live) eqn:Hl; cbn.
  - apply lookup_delete_eq.
  - exact Hl.
Qed.

Lemma dropped_shadow : dropped !! shadow = Some accepted.
Proof.
  unfold dropCollection. destruct (inserted !! live) eqn:Hl; cbn.
  - rewrite lookup_delete_ne by done. apply inserted_shadow.
  - apply inserted_shadow.
Qed.

Lemma stateAfter_3 : stateAfter 3 = mkPublish Dropped dropped.
Proof. done. Qed.

Lemma stateAfter_4 :
  stateAfter 4 = mkPublish Renamed (<[live := accepted]> (delete shadow dropped)).
Proof.
  change (stateAfter 4)
    with (match publishNext validates formatted (mkPublish Dropped dropped) with
          | Some st' => st'
          | None => mkPublish Dropped dropped
          end).
  unfold publishNext. cbn [phase store].
  by rewrite (renameCollection_moves _ _ _ _ dropped_shadow dropped_live).
Qed.

(** Once the publisher is through, the live collection holds the documents
    that passed validation, whatever the store held before. *)
Lemma published_catalog : readCatalog (store (stateAfter 4)) = accepted.
Proof. rewrite stateAfter_4. unfold readCatalog. cbn. by rewrite lookup_insert_eq. Qed.

Lemma publishRun_steps fuel st :
  rtc (publish_step validates formatted) st
      (publishRun validates formatted fuel st).
Proof.
  revert st. induction fuel as [|n IH]; intros st; [done|].
  cbn. destruct (publishNext validates formatted st) as [st'|] eqn:Hst; [|done].
  by eapply rtc_l; [exact Hst|].
Qed.

Lemma stateAfter_reachable n : reachable validates formatted db (stateAfter n).
Proof. apply publishRun_steps. Qed.

End PublisherFacts.

(** * The claims *)

(** ** Country resolver *)

(** C10, as stated, fails: a provider-supplied country name without a
    translation-table entry under its canonical key is still resolved when
    the translation table has a key that canonicalises to it.  Here the
    provider lists "South Africa", the translation table is keyed by
    "South Africa" (so it has nothing under "southafrica") and the code
    table has "southafrica". *)
Lemma C10_counterexample :
  ("0", "South Africa") ∈ displayKeyedCountries /\
  jsGet displayKeyedTranslations (generateCanonicalName "South Africa") = None /\
  getCountryDataByCanonicalName displayKeyedCountries displayKeyedTranslations
      displayKeyedCodes "South Africa"
    = Some (mkCountryData "Afriqa-ye Jonubi" "ZA" "South Africa").
Proof.
  split; [|split].
  - apply elem_of_cons. by left.
  - vm_compute. reflexivity.
  - vm_compute. reflexivity.
Qed.

(** C10 (amended): every entry of the unified country map has a truthy
    dialling code, the one of the code table under its key, and a Persian
    name taken from the translation table.  A canonical key is in the map
    exactly when the code table has a truthy code for it and some key of
    the translation table canonicalises to it.  So a country name whose
    canonical key lacks a code, or to which no translation key
    canonicalises, is not resolved, and every raw record of that country
    is dropped by the normaliser. *)
Theorem C10_resolver_completeness
    (smsActivateCountries countryTranslations countryCodes : JsObject) :
  let resolve := getCountryDataByCanonicalName
                   smsActivateCountries countryTranslations countryCodes in
  (forall c e,
      unifiedCountryMap smsActivateCountries countryTranslations countryCodes
        !! c = Some e ->
      truthy (code e) = true /\
      jsGet countryCodes c = Some (code e) /\
      exists key, (key, persian e) ∈ countryTranslations /\
                  generateCanonicalName key = c) /\
  (forall cname,
      is_Some (resolve cname) <->
      truthyProp (jsGet countryCodes (generateCanonicalName cname)) = true /\
      exists key v, (key, v) ∈ countryTranslations /\
                    generateCanonicalName key = generateCanonicalName cname) /\
  (forall cname,
      truthyProp (jsGet countryCodes (generateCanonicalName cname)) = false \/
      (forall key v, (key, v) ∈ countryTranslations ->
                     generateCanonicalName key ≠ generateCanonicalName cname) ->
      resolve cname = None /\
      forall usd rub servicePriority s,
        country s = cname ->
        normalize usd rub servicePriority resolve s = None).
Proof.
  intros resolve. split; [|split].
  - apply unifiedCountryMap_wellSourced.
  - intros cname. apply unifiedCountryMap_domain.
  - intros cname Hlack.
    assert (Hnone : forall n, generateCanonicalName n = generateCanonicalName cname ->
                              resolve n = None).
    { intros n Hn. apply eq_None_not_Some.
      unfold resolve, getCountryDataByCanonicalName.
      rewrite unifiedCountryMap_domain, Hn.
      intros (Hcode & key & v & Hin & Hkey).
      destruct Hlack as [Hc|Hk]; [congruence|by eapply Hk]. }
    split; [by apply Hnone|].
    intros usd rub sp s Hs. unfold normalize.
    rewrite (Hnone (cleanCountry s)).
    + by destruct (truthy _).
    + unfold cleanCountry. by rewrite generateCanonicalName_clean, Hs.
Qed.

(** Ukraine is in the provider list of the sample tables but has neither a
    translation nor a code: it is not resolved. *)
Lemma C10_resolver_completeness_witness :
  truthyProp (jsGet sampleCodes (generateCanonicalName "Ukraine")) = false /\
  sampleResolver "Ukraine" = None.
Proof.
  split; [vm_compute; reflexivity|].
  apply (proj2 (proj2 (C10_resolver_completeness
                         sampleCountries sampleTranslations sampleCodes))
           "Ukraine").
  left. vm_compute. reflexivity.
Defined.

(** ** Normalisation *)

(** C9, as stated, fails on the counter: a record of an unmapped country
    with a known service leaves the whole loop state as it was, so nothing
    that could be read off the state after the iteration has been
    incremented.  (The updater keeps one observability set,
    [unknownServiceCodes], and it is about services.) *)
Lemma C9_counterexample :
  let st := initialLoop in
  let st' := processRecord 58000 630 samplePriority sampleResolver st
               fiveSimAtlantis in
  unifiedCountryMap sampleCountries sampleTranslations sampleCodes
    !! generateCanonicalName (country fiveSimAtlantis) = None /\
  st' = st /\
  ~ exists counter : LoopState -> nat, counter st' = S (counter st).
Proof.
  assert (Hst : processRecord 58000 630 samplePriority sampleResolver
                  initialLoop fiveSimAtlantis = initialLoop)
    by (vm_compute; reflexivity).
  cbv zeta. rewrite Hst. split; [vm_compute; reflexivity|]. split; [done|].
  intros [counter Hc]. lia.
Qed.

(** C9 (amended): a raw record whose country has no entry in the unified
    country map yields no document: the loop body ends at the [continue]
    without touching the groups, the run goes on, and the final list is the
    one the run would have produced without that record.  The loop body is
    a total function, there is no exception to raise.  No counter of
    unmapped countries exists; the only trace the record may leave is its
    service code in [unknownServiceCodes], when the service is unknown. *)
Theorem C9_unmappable_country_skipped
    (smsActivateCountries countryTranslations countryCodes : JsObject)
    (usd rub : Q) (servicePriority : gmap string PriorityInfo)
    (st : LoopState) (s : RawService) (before after : list RawService) :
  let resolve := getCountryDataByCanonicalName
                   smsActivateCountries countryTranslations countryCodes in
  unifiedCountryMap smsActivateCountries countryTranslations countryCodes
    !! generateCanonicalName (country s) = None ->
  normalize usd rub servicePriority resolve s = None /\
  serviceMap (processRecord usd rub servicePriority resolve st s)
    = serviceMap st /\
  unknownServiceCodes (processRecord usd rub servicePriority resolve st s)
    = (if notesUnknown servicePriority s
       then {[service s]} ∪ unknownServiceCodes st
       else unknownServiceCodes st) /\
  formattedServices usd rub servicePriority resolve (before ++ s :: after)
    = formattedServices usd rub servicePriority resolve (before ++ after).
Proof.
  intros resolve Hmap.
  assert (Hnorm : normalize usd rub servicePriority resolve s = None).
  { unfold normalize, resolve, getCountryDataByCanonicalName, cleanCountry.
    rewrite generateCanonicalName_clean, Hmap. by destruct (truthy _). }
  split; [exact Hnorm|]. split; [|split].
  - by rewrite serviceMap_processRecord, Hnorm.
  - apply unknownServiceCodes_processRecord.
  - unfold formattedServices, normalizeAll.
    by rewrite serviceMap_fold_skip.
Qed.

Lemma C9_unmappable_country_skipped_witness :
  unifiedCountryMap sampleCountries sampleTranslations sampleCodes
    !! generateCanonicalName (country fiveSimAtlantis) = None /\
  formattedServices 58000 630 samplePriority sampleResolver
      ([fiveSimTelegram] ++ fiveSimAtlantis :: [smsTelegram])
    = formattedServices 58000 630 samplePriority sampleResolver
        ([fiveSimTelegram] ++ [smsTelegram]).
Proof.
  split; [vm_compute; reflexivity|].
  apply (C9_unmappable_country_skipped sampleCountries sampleTranslations
           sampleCodes 58000 630 samplePriority initialLoop fiveSimAtlantis
           [fiveSimTelegram] [smsTelegram]).
  vm_compute. reflexivity.
Defined.

(** C4: every document of the catalog a run publishes has a price above
    zero and is available exactly when the unit count of the raw record it
    was built from is above zero. *)
Theorem C4_published_price_and_availability
    (usd rub : Q) (servicePriority : gmap string PriorityInfo)
    (resolve : string -> option CountryData) (validates : Service -> bool)
    (db : gmap string (list Service)) (raw : list RawService) (f : Service) :
  let formatted := formattedServices usd rub servicePriority resolve raw in
  f ∈ readCatalog
        (store (publishRun validates formatted 4 (mkPublish Connected db))) ->
  (0 < price_toman f)%Z /\
  exists s, s ∈ raw /\
            normalize usd rub servicePriority resolve s = Some f /\
            (0 < basePriceToman usd rub s)%Q /\
            (available f = true <-> (0 < count s)%Z).
Proof.
  intros formatted Hf. rewrite published_catalog in Hf.
  apply list_elem_of_filter in Hf as [_ Hf].
  apply elem_of_formattedServices in Hf as (s & Hs & Hnorm).
  destruct (normalize_Some _ _ _ _ _ _ Hnorm) as (cd & _ & Hbase & ->).
  split.
  - cbn. by apply finalPriceToman_pos.
  - exists s. repeat split; [done..| |]; cbn; by rewrite Z.ltb_lt.
Qed.

Lemma C4_published_price_and_availability_witness :
  let formatted := formattedServices 58000 630 samplePriority sampleResolver
                     [fiveSimTelegram; smsTelegramAgain] in
  let f := formattedService 58000 630 samplePriority smsTelegramAgain
             (mkCountryData "Rusiye" "RU" "Russia") in
  f ∈ readCatalog
        (store (publishRun (fun _ => true) formatted 4 (mkPublish Connected ∅))) /\
  (0 < price_toman f)%Z /\ available f = false.
Proof.
  cbv zeta. split.
  - vm_compute. apply elem_of_cons. right. apply elem_of_cons. by left.
  - split.
    + refine (proj1 (C4_published_price_and_availability
                58000 630 samplePriority sampleResolver (fun _ => true) ∅
                [fiveSimTelegram; smsTelegramAgain] _ _)).
      vm_compute. apply elem_of_cons. right. apply elem_of_cons. by left.
    + vm_compute. reflexivity.
Defined.

(** C5: flattening the groups gives back the documents that entered
    grouping, each once: the output is a permutation of the documents built
    from the raw records that pass the drop filters, so the counts agree.
    When a 5sim record and an sms-activate record both pass the filters,
    the two documents are different and both are in the output, also when
    they fall into the same group. *)
Theorem C5_merger_count_preserving
    (usd rub : Q) (servicePriority : gmap string PriorityInfo)
    (resolve : string -> option CountryData) (raw : list RawService) :
  let kept := omap (normalize usd rub servicePriority resolve) raw in
  let output := formattedServices usd rub servicePriority resolve raw in
  (forall m k v, flattenGroups (pushGroup m k v) ≡ₚ flattenGroups m ++ [v]) /\
  output ≡ₚ kept /\
  length output = length kept /\
  (forall a b fa fb,
      a ∈ raw -> b ∈ raw ->
      provider a = "5sim" -> provider b = "sms-activate" ->
      normalize usd rub servicePriority resolve a = Some fa ->
      normalize usd rub servicePriority resolve b = Some fb ->
      fa ∈ output /\ fb ∈ output /\ fa ≠ fb).
Proof.
  intros kept output.
  assert (Hperm : output ≡ₚ kept) by apply formattedServices_perm.
  split; [apply flattenGroups_pushGroup|].
  split; [exact Hperm|]. split; [by rewrite Hperm|].
  intros a b fa fb Ha Hb Hpa Hpb Hfa Hfb.
  split; [|split].
  - apply elem_of_formattedServices. eauto.
  - apply elem_of_formattedServices. eauto.
  - destruct (normalize_Some _ _ _ _ _ _ Hfa) as (cda & _ & _ & ->).
    destruct (normalize_Some _ _ _ _ _ _ Hfb) as (cdb & _ & _ & ->).
    intros Heq. apply (f_equal svc_provider) in Heq. cbn in Heq.
    rewrite Hpa, Hpb in Heq. discriminate.
Qed.

(** Both providers offer Telegram in Russia; the two documents share the
    group key and both are published. *)
Lemma C5_merger_count_preserving_witness :
  let raw := [fiveSimTelegram; smsTelegram] in
  let output := formattedServices 58000 630 samplePriority sampleResolver raw in
  let fa := formattedService 58000 630 samplePriority fiveSimTelegram
              (mkCountryData "Rusiye" "RU" "Russia") in
  let fb := formattedService 58000 630 samplePriority smsTelegram
              (mkCountryData "Rusiye" "RU" "Russia") in
  mapKey fa = mapKey fb /\ fa ∈ output /\ fb ∈ output /\ fa ≠ fb.
Proof.
  cbv zeta. split; [vm_compute; reflexivity|].
  apply (proj2 (proj2 (proj2 (C5_merger_count_preserving
                 58000 630 samplePriority sampleResolver
                 [fiveSimTelegram; smsTelegram])))
           fiveSimTelegram smsTelegram).
  - apply elem_of_cons. by left.
  - apply elem_of_cons. right. apply elem_of_cons. by left.
  - reflexivity.
  - reflexivity.
  - vm_compute. reflexivity.
  - vm_compute. reflexivity.
Defined.



(** ** Prices *)

(** C2, as stated, fails for the published price: the updater does not
    round to a rounding unit.  A 5sim record of cost 10 at a RUB rate of 151
    is published at 2114, while rounding [10 * 151 * 1.4] up to the unit 100
    gives 2200, which is what [convertToToman] returns. *)
Lemma C2_counterexample :
  let rounded := (Qceiling (10 * 151 * (1 + (4 # 10)) / 100) * 100)%Z in
  (price_toman <$> normalize 58000 151 samplePriority sampleResolver
                     fiveSimTelegram) = Some 2114%Z /\
  rounded = 2200%Z /\
  convertToToman None None 10 "RUB" (mkRates 151 58000) = rounded.
Proof. cbv zeta. repeat split; vm_compute; reflexivity. Qed.

(** C2 (amended): the price the updater publishes for a record is
    [Math.ceil((c * r) * 1.4)] as binary64 arithmetic evaluates it - each of
    the two products rounded to the nearest double - with [c] the native
    cost and [r] the rate of the record's provider, and no rounding unit.
    The rounding of the products can move the result off the exact
    [ceil(c * r * (1 + 0.4))]: a cost of 0.28 at a RUB rate of 625 is
    published at 246, the exact value being 245.  Rounding up to a unit is
    done by the stand-alone converter [convertToToman] only, which with the
    default margin 0.4 and the default unit 100 returns
    [Math.ceil(((c * r) * (1 + 0.4)) / 100) * 100], in binary64 as well.
    For a 5sim record of cost 10 at a RUB rate of 150 both give 2100. *)
Theorem C2_retail_price
    (usdToTomanRate rubToTomanRate : Q) (servicePriority : gmap string PriorityInfo)
    (resolve : string -> option CountryData) (s : RawService) (f : Service) :
  normalize usdToTomanRate rubToTomanRate servicePriority resolve s = Some f ->
  price_toman f
    = Qceiling
        (mul64 (mul64 (round64 (numberOrZero (price s)))
                      (round64 (if String.eqb (provider s) "sms-activate"
                                then usdToTomanRate else rubToTomanRate)))
               (round64 (14 # 10))) /\
  (forall c currency rates,
      convertToToman None None c currency rates
      = let rate := if String.eqb currency "RUB" then rub rates
                    else if String.eqb currency "USD" then usd rates
                    else 1%Q in
        let precision := round64 100 in
        Qceiling
          (mul64 (inject_Z
                    (Qceiling
                       (div64 (mul64 (mul64 (round64 c) (round64 rate))
                                     (add64 1 (round64 (4 # 10))))
                              precision)))
                 precision)) /\
  (price_toman <$> normalize usdToTomanRate 150 samplePriority sampleResolver
                     fiveSimTelegram) = Some 2100%Z /\
  convertToToman None None 10 "RUB" (mkRates 150 usdToTomanRate) = 2100%Z /\
  (price_toman <$> normalize usdToTomanRate 625 samplePriority sampleResolver
                     fiveSimTelegramCheap) = Some 246%Z /\
  Qceiling ((28 # 100) * 625 * (1 + (4 # 10)))%Q = 245%Z.
Proof.
  intros Hnorm.
  destruct (normalize_Some _ _ _ _ _ _ Hnorm) as (cd & _ & _ & ->).
  split; [|split; [|split; [|split; [|split]]]].
  - cbn [price_toman formattedService]. unfold finalPriceToman, basePriceDouble.
    by destruct (String.eqb _ _).
  - intros c currency rates. reflexivity.
  - vm_compute. reflexivity.
  - vm_compute. reflexivity.
  - vm_compute. reflexivity.
  - vm_compute. reflexivity.
Qed.

Lemma C2_retail_price_witness :
  let f := formattedService 58000 151 samplePriority fiveSimTelegram
             (mkCountryData "Rusiye" "RU" "Russia") in
  normalize 58000 151 samplePriority sampleResolver fiveSimTelegram = Some f /\
  price_toman f
  = Qceiling (mul64 (mul64 (round64 10) (round64 151)) (round64 (14 # 10))).
Proof.
  cbv zeta. split; [vm_compute; reflexivity|].
  apply (proj1 (C2_retail_price 58000 151 samplePriority sampleResolver
                  fiveSimTelegram _ ltac:(vm_compute; reflexivity))).
Defined.

(** ** Identity *)

(** The identity is a function of the cleaned service code, the cleaned
    country, the operator and the provider. *)
Lemma id_deterministic usd rub usd' rub' sp sp' s s' cd cd' :
  cleanServiceCode s = cleanServiceCode s' ->
  cleanCountry s = cleanCountry s' ->
  operator s = operator s' ->
  provider s = provider s' ->
  id (formattedService usd rub sp s cd) = id (formattedService usd' rub' sp' s' cd').
Proof. intros H1 H2 H3 H4. cbn. by rewrite H1, H2, H3, H4. Qed.

(** C6 fails on the code: the updater publishes what the providers report
    and removes no duplicate.  When sms-activate reports the service [tg]
    in Russia twice, at two prices, the output holds two different
    documents under the one identity. *)
Theorem C6_duplicate_identity :
  exists f1 f2,
    formattedServices 58000 630 samplePriority sampleResolver
      [smsTelegram; smsTelegramAgain] = [f1; f2] /\
    f1 ≠ f2 /\
    id f1 = "srv_tg_russia_any_sms-activate" /\
    id f2 = "srv_tg_russia_any_sms-activate" /\
    ~ NoDup (id <$> formattedServices 58000 630 samplePriority sampleResolver
                      [smsTelegram; smsTelegramAgain]).
Proof.
  eexists _, _. split; [vm_compute; reflexivity|].
  split; [|split; [reflexivity|split; [reflexivity|]]].
  - intros Heq. apply (f_equal available) in Heq. discriminate.
  - intros Hnd. vm_compute in Hnd.
    apply NoDup_cons in Hnd as [Hnotin _].
    apply Hnotin. apply elem_of_cons. by left.
Qed.

(** ** Publication *)

(** C1 fails on the code: the publisher drops the live collection and
    renames the shadow collection in two store operations.  In the state
    between them the live collection does not exist and a reader finds an
    empty catalog, whatever the catalog held before the run. *)
Theorem C1_publish_exposes_missing_catalog
    (validates : Service -> bool) (formatted : list Service)
    (db : gmap string (list Service)) :
  exists st,
    reachable validates formatted db st /\
    phase st = Dropped /\
    store st !! live = None /\
    store st !! shadow = Some (filter (fun d => validates d = true) formatted) /\
    readCatalog (store st) = [].
Proof.
  exists (publishRun validates formatted 3 (mkPublish Connected db)).
  split; [apply stateAfter_reachable|].
  rewrite stateAfter_3. cbn [phase store]. split; [done|].
  split; [apply dropped_live|]. split; [apply dropped_shadow|].
  unfold readCatalog. by rewrite dropped_live.
Qed.

(** The gap on a catalog of one document replaced by a catalog of two: the
    reader finds neither. *)
Lemma publish_gap_example :
  let prior := formattedServices 58000 630 samplePriority sampleResolver
                 [fiveSimTelegram] in
  let next := formattedServices 58000 630 samplePriority sampleResolver
                 [fiveSimTelegram; smsTelegram] in
  let st := publishRun (fun _ => true) next 3
              (mkPublish Connected {[ live := prior ]}) in
  length prior = 1%nat /\ length next = 2%nat /\
  length (readCatalog (store st)) = 0%nat.
Proof. cbv zeta. repeat split; vm_compute; reflexivity. Qed.

(** Every state of a publish is one of the five the run passes through,
    and the catalog a reader finds is the prior one, the new one, or
    empty. *)
Lemma reachable_catalog validates formatted db st :
  reachable validates formatted db st ->
  readCatalog (store st) = readCatalog db \/
  readCatalog (store st) = [] \/
  readCatalog (store st) = filter (fun d => validates d = true) formatted.
Proof.
  intros Hreach.
  assert (Hst : exists n, (n <= 4)%nat /\
                  st = publishRun validates formatted n (mkPublish Connected db)).
  { unfold reachable in Hreach. apply rtc_nsteps in Hreach as [n Hn].
    revert st Hn. induction n as [|n IH]; intros st Hn.
    - inversion Hn; subst.
      exists 0%nat. split; [lia|done].
    - apply nsteps_inv_r in Hn as (mid & Hmid & Hstep).
      destruct (IH mid Hmid) as (k & Hk & ->).
      unfold publish_step in Hstep.
      destruct k as [|[|[|[|[|k]]]]]; try lia.
      + exists 1%nat. split; [lia|]. cbn in Hstep. by injection Hstep as <-.
      + exists 2%nat. split; [lia|]. cbn in Hstep. by injection Hstep as <-.
      + exists 3%nat. split; [lia|]. cbn in Hstep. by injection Hstep as <-.
      + exists 4%nat. split; [lia|].
        rewrite stateAfter_3 in Hstep. rewrite stateAfter_4.
        unfold publishNext in Hstep. cbn [phase store] in Hstep.
        rewrite (renameCollection_moves _ _ _ _
                   (dropped_shadow validates formatted db)
                   (dropped_live validates formatted db)) in Hstep.
        by injection Hstep as <-.
      + rewrite stateAfter_4 in Hstep. discriminate. }
  destruct Hst as (n & Hn & ->).
  destruct n as [|[|[|[|[|n]]]]]; try lia.
  - by left.
  - left. unfold readCatalog. cbn. unfold deleteMany.
    rewrite lookup_alter. by case_decide.
  - left. unfold readCatalog. cbn [publishRun publishNext phase store].
    by rewrite inserted_live.
  - right. left. rewrite stateAfter_3. unfold readCatalog. cbn [store].
    by rewrite dropped_live.
  - right. right. apply published_catalog.
Qed.

(** ** Retries *)

(** C3: with three attempts allowed, an operation that rejects with status
    500 twice and then resolves is invoked exactly three times and its
    result is returned.  An operation that rejects with status 500 on each
    of the [retries] attempts allowed is invoked exactly [retries] times,
    and the executor then throws the error of the last attempt. *)
Theorem C3_retry_bound {W R : Type} (fn : W -> (R + JsError) * W)
    (delay jitter : Q) (random : nat -> Q) :
  (forall w0 w1 w2 w3 e1 e2 r,
      fn w0 = (inr e1, w1) -> status e1 = Some 500%Z ->
      fn w1 = (inr e2, w2) -> status e2 = Some 500%Z ->
      fn w2 = (inl r, w3) ->
      let run := withRetry fn delay jitter random 3 w0 in
      completion run = Returned r /\ calls run = 3 /\
      attempts run = [inr e1; inr e2; inl r] /\ world run = w3) /\
  (forall retries w0,
      (forall k, k < retries ->
         exists e, (fn (worldBefore fn k w0)).1 = inr e /\
                   status e = Some 500%Z) ->
      let run := withRetry fn delay jitter random retries w0 in
      calls run = retries /\
      forall n e, retries = S n ->
                  (fn (worldBefore fn n w0)).1 = inr e ->
                  completion run = Threw (Some e)).
Proof.
  split.
  - intros w0 w1 w2 w3 e1 e2 r H0 He1 H1 He2 H2 run.
    assert (Hr1 : retryable e1 = true) by (unfold retryable; by rewrite He1).
    assert (Hr2 : retryable e2 = true) by (unfold retryable; by rewrite He2).
    unfold run, withRetry, calls. cbn [retryLoop].
    rewrite H0, Hr1. cbn [retryLoop]. rewrite H1, Hr2. cbn [retryLoop].
    rewrite H2. by cbn.
  - intros retries w0 Hfail run.
    destruct (retryLoop_exhausted fn delay jitter random retries 0 None w0)
      as [Hcalls Hcompl].
    { intros k Hk. destruct (Hfail k Hk) as (e & He & Hs).
      exists e. split; [done|]. apply retryable_iff. right. exists 500%Z.
      split; [done|lia]. }
    split; [exact Hcalls|].
    intros n e -> Hlast. unfold run, withRetry. by rewrite Hcompl, Hlast.
Qed.

Lemma C3_retry_bound_witness :
  (let run := withRetry failsTwice 1000 200 (fun _ => (1 # 2)%Q) 3 0%nat in
   completion run = Returned "prices" /\ calls run = 3 /\ world run = 3%nat) /\
  (let run := withRetry alwaysDown 1000 200 (fun _ => (1 # 2)%Q) 3 0%nat in
   calls run = 3 /\
   completion run
     = Threw (Some (mkError (Some 500%Z) "Request failed with status code 500"))).
Proof.
  split.
  - destruct (proj1 (C3_retry_bound failsTwice 1000 200 (fun _ => (1 # 2)%Q))
                0%nat 1%nat 2%nat 3%nat _ _ "prices"
                eq_refl eq_refl eq_refl eq_refl eq_refl)
      as (Hc & Hn & _ & Hw).
    cbv zeta. by rewrite Hc, Hn, Hw.
  - destruct (proj2 (C3_retry_bound alwaysDown 1000 200 (fun _ => (1 # 2)%Q))
                3%nat 0%nat) as [Hn Hc].
    { intros k _. eexists. split; reflexivity. }
    cbv zeta. split; [exact Hn|].
    apply (Hc 2%nat _ eq_refl eq_refl).
Defined.

(** C8: take any failing attempt of a run, the one numbered [k] from 0.
    Its error is classified as retryable exactly when it carries status
    429 or a status of 500 or more.  The executor sleeps the backoff delay
    [delay * 2^k + random * jitter] after it exactly when the error is
    retryable, and, as long as the bound on attempts allows another one,
    invokes the operation again exactly when the error is retryable.  An
    error that is not retryable is thrown at once: the run ends with it and
    attempt [k] was the last invocation. *)
Theorem C8_retry_classification {W R : Type} (fn : W -> (R + JsError) * W)
    (delay jitter : Q) (random : nat -> Q) (retries : nat) (w0 : W)
    (k : nat) (e : JsError) :
  let run := withRetry fn delay jitter random retries w0 in
  attempts run !! k = Some (inr e) ->
  (retryable e = true <->
     status e = Some 429%Z \/ exists st, status e = Some st /\ (500 <= st)%Z) /\
  (is_Some (sleeps run !! k) <-> retryable e = true) /\
  (retryable e = true ->
     sleeps run !! k = Some (delay * pow2 k + random k * jitter)%Q) /\
  (S k < retries ->
     (is_Some (attempts run !! S k) <-> retryable e = true)) /\
  (retryable e = false ->
     completion run = Threw (Some e) /\ calls run = S k).
Proof.
  intros run Hk.
  destruct (retryLoop_failing_attempt fn delay jitter random retries 0 None
              w0 k e Hk) as [Hretry Hfatal].
  fold (withRetry fn delay jitter random retries w0) in Hretry, Hfatal.
  fold run in Hretry, Hfatal.
  split; [apply retryable_iff|].
  destruct (retryable e) eqn:He.
  - destruct (Hretry eq_refl) as [Hs Hnext].
    split; [by rewrite Hs|]. split; [done|]. split; [|done].
    intros Hlt. split; [done|]. intros _. by apply Hnext.
  - destruct (Hfatal eq_refl) as (Hc & Hn & Hs).
    split; [rewrite Hs; split; [by intros [? ?]|done]|].
    split; [done|]. split; [|done].
    intros _. split; [|done].
    intros [a Ha]. apply lookup_lt_Some in Ha. unfold calls in Hn. lia.
Qed.

Lemma C8_retry_classification_witness :
  let run := withRetry downThenMissing 1000 200 (fun _ => (1 # 2)%Q) 3 0%nat in
  attempts run !! 1%nat = Some (inr (mkError (Some 404%Z) "Not Found")) /\
  completion run = Threw (Some (mkError (Some 404%Z) "Not Found")) /\
  calls run = 2.
Proof.
  cbv zeta. split; [reflexivity|].
  apply (proj2 (proj2 (proj2 (proj2
           (C8_retry_classification downThenMissing 1000 200 (fun _ => (1 # 2)%Q)
              3 0%nat 1%nat (mkError (Some 404%Z) "Not Found") eq_refl))))).
  reflexivity.
Defined.

(** * Further properties of the code *)

(** ** Canonical names and the resolver *)

Lemma filterString_Forall p s :
  Forall (fun c => p c = true) (String.list_ascii_of_string (filterString p s)).
Proof.
  induction s as [|c r IH]; cbn; [constructor|].
  destruct (p c) eqn:Hc; [|exact IH]. cbn. by constructor.
Qed.

Lemma append_empty_r s : s +:+ "" = s.
Proof.
  induction s as [|c r IH]; [done|].
  change (String c r +:+ "") with (String c (r +:+ "")). by rewrite IH.
Qed.

(** Canonicalisation works character by character. *)
Lemma generateCanonicalName_app a b :
  generateCanonicalName (a +:+ b)
  = generateCanonicalName a +:+ generateCanonicalName b.
Proof.
  unfold generateCanonicalName, toLowerCase.
  induction a as [|c r IH]; [done|].
  change (String c r +:+ b) with (String c (r +:+ b)).
  cbn [mapString filterString].
  destruct (isLower (lowerChar c) || isDigit (lowerChar c)); [|exact IH].
  rewrite IH. reflexivity.
Qed.

(** X1: a canonical name consists of the characters [a-z] and [0-9] only,
    and canonicalising it again changes nothing. *)
Theorem X1_canonical_name_shape (cname : string) :
  Forall (fun c => isLower c || isDigit c = true)
    (String.list_ascii_of_string (generateCanonicalName cname)) /\
  generateCanonicalName (generateCanonicalName cname)
    = generateCanonicalName cname.
Proof.
  split; [apply filterString_Forall|apply generateCanonicalName_idem].
Qed.

(** X2: the resolver does not see the cleaning the updater applies to a
    country token, nor white space around it: the token lower-cased and
    trimmed, the raw token and the token between two spaces all resolve
    alike. *)
Theorem X2_resolver_ignores_case_and_padding
    (smsActivateCountries countryTranslations countryCodes : JsObject)
    (token : string) :
  let resolve := getCountryDataByCanonicalName
                   smsActivateCountries countryTranslations countryCodes in
  resolve (trim (toLowerCase token)) = resolve token /\
  resolve (" " +:+ token +:+ " ") = resolve token.
Proof.
  intros resolve. unfold resolve, getCountryDataByCanonicalName.
  split; [by rewrite generateCanonicalName_clean|].
  f_equal. rewrite !generateCanonicalName_app.
  change (generateCanonicalName " ") with "". cbn [String.append].
  apply append_empty_r.
Qed.

Section ResolverPrecedence.

Variable smsActivateCountries countryTranslations countryCodes : JsObject.

Abbreviation firstLoop :=
  (fold_left (addProviderCountry countryTranslations countryCodes)).
Abbreviation secondLoop :=
  (fold_left (addTranslatedCountry countryCodes)).

Lemma secondLoop_keeps_entry l m c e :
  m !! c = Some e -> secondLoop l m !! c = Some e.
Proof.
  revert m. induction l as [|x l IH]; intros m Hm; [done|].
  cbn [fold_left]. apply IH. unfold addTranslatedCountry.
  destruct (m !! generateCanonicalName x.1) eqn:Hx; [done|].
  destruct (jsGet countryCodes _) as [cd|]; [|done].
  destruct (truthy cd); [|done].
  rewrite lookup_insert_ne; [done|]. intros <-. congruence.
Qed.

Lemma firstLoop_stores l m cname idn p cd :
  (idn, cname) ∈ l ->
  jsGet countryTranslations (generateCanonicalName cname) = Some p ->
  truthy p = true ->
  jsGet countryCodes (generateCanonicalName cname) = Some cd ->
  truthy cd = true ->
  exists orig,
    firstLoop l m !! generateCanonicalName cname = Some (mkCountryData p cd orig) /\
    generateCanonicalName orig = generateCanonicalName cname /\
    orig ∈ l.*2.
Proof.
  intros Hin Hp Htp Hcd Htcd.
  assert (Hkeep : forall l' m',
    (exists orig, m' !! generateCanonicalName cname = Some (mkCountryData p cd orig) /\
                  generateCanonicalName orig = generateCanonicalName cname /\
                  orig ∈ l.*2) ->
    (forall x, x ∈ l' -> x ∈ l) ->
    exists orig,
      firstLoop l' m' !! generateCanonicalName cname = Some (mkCountryData p cd orig) /\
      generateCanonicalName orig = generateCanonicalName cname /\ orig ∈ l.*2).
  { induction l' as [|x l' IH]; intros m' Hgood Hsub; [done|].
    cbn [fold_left]. apply IH.
    - unfold addProviderCountry.
      destruct (decide (generateCanonicalName x.2 = generateCanonicalName cname))
        as [Heq|Hne].
      + rewrite Heq, Hp, Hcd, Htp, Htcd. cbn. exists x.2.
        rewrite lookup_insert_eq. split; [done|]. split; [done|].
        apply list_elem_of_fmap. exists x. split; [done|].
        apply Hsub. apply elem_of_cons. by left.
      + destruct (jsGet countryTranslations (generateCanonicalName x.2))
          as [p'|]; [|exact Hgood].
        destruct (jsGet countryCodes (generateCanonicalName x.2))
          as [cd'|]; [|exact Hgood].
        destruct (truthy p' && truthy cd'); [|exact Hgood].
        destruct Hgood as (orig & Hm & Ho). exists orig.
        by rewrite lookup_insert_ne.
    - intros y Hy. apply Hsub. apply elem_of_cons. by right. }
  assert (Hgen : forall l1 m1, (forall x, x ∈ l1 -> x ∈ l) -> (idn, cname) ∈ l1 ->
    exists orig,
      firstLoop l1 m1 !! generateCanonicalName cname = Some (mkCountryData p cd orig) /\
      generateCanonicalName orig = generateCanonicalName cname /\ orig ∈ l.*2).
  { induction l1 as [|x l1 IH]; intros m1 Hsub Hx.
    - by apply elem_of_nil in Hx.
    - apply elem_of_cons in Hx as [<-|Hx].
      + cbn [fold_left]. apply Hkeep.
        * unfold addProviderCountry. cbn [snd].
          rewrite Hp, Hcd, Htp, Htcd. cbn. exists cname.
          rewrite lookup_insert_eq. split; [done|]. split; [done|].
          apply list_elem_of_fmap. by exists (idn, cname).
        * intros y Hy. apply Hsub. apply elem_of_cons. by right.
      + cbn [fold_left]. apply IH; [|done].
        intros y Hy. apply Hsub. apply elem_of_cons. by right. }
  by apply Hgen.
Qed.

End ResolverPrecedence.

(** X3: provider-supplied names take precedence.  When a name of the
    provider list has a truthy translation and a truthy code under its
    canonical key, the entry of that key holds that translation and that
    code, and its [original] is a name of the provider list, whatever keys
    the translation table has. *)
Theorem X3_provider_entries_take_precedence
    (smsActivateCountries countryTranslations countryCodes : JsObject)
    (idn cname p cd : string) :
  (idn, cname) ∈ smsActivateCountries ->
  jsGet countryTranslations (generateCanonicalName cname) = Some p ->
  truthy p = true ->
  jsGet countryCodes (generateCanonicalName cname) = Some cd ->
  truthy cd = true ->
  exists orig,
    getCountryDataByCanonicalName smsActivateCountries countryTranslations
      countryCodes cname = Some (mkCountryData p cd orig) /\
    generateCanonicalName orig = generateCanonicalName cname /\
    orig ∈ smsActivateCountries.*2.
Proof.
  intros Hin Hp Htp Hcd Htcd.
  destruct (firstLoop_stores countryTranslations countryCodes
              smsActivateCountries ∅ cname idn p cd Hin Hp Htp Hcd Htcd)
    as (orig & Hm & Hg & Ho).
  exists orig. split; [|done].
  unfold getCountryDataByCanonicalName, unifiedCountryMap.
  by apply secondLoop_keeps_entry.
Qed.

Lemma X3_provider_entries_take_precedence_witness :
  exists orig,
    sampleResolver "Russia" = Some (mkCountryData "Rusiye" "RU" orig) /\
    generateCanonicalName orig = generateCanonicalName "Russia" /\
    orig ∈ sampleCountries.*2.
Proof.
  apply (X3_provider_entries_take_precedence sampleCountries
           sampleTranslations sampleCodes "0" "Russia" "Rusiye" "RU").
  - apply elem_of_cons. by left.
  - reflexivity.
  - reflexivity.
  - reflexivity.
  - reflexivity.
Defined.

(** ** The shape of a run of the retry executor *)

Section WithRetryShape.

Context {W R : Type}.
Variable fn : W -> (R + JsError) * W.
Variable delay jitter : Q.
Variable random : nat -> Q.

Abbreviation loopFrom := (retryLoop fn delay jitter random).

(** Every run is a row of retryable failures, each followed by its
    backoff sleep, ended by a result, by a failure that is not retryable,
    or by the bound on attempts. *)
Lemma retryLoop_shape remaining i lastError w :
  exists errs,
    Forall (fun e => retryable e = true) errs /\
    sleeps (loopFrom remaining i lastError w)
      = ((fun k => waitTime delay jitter random (i + k)) <$> seq 0 (length errs)) /\
    ((exists r,
        completion (loopFrom remaining i lastError w) = Returned r /\
        attempts (loopFrom remaining i lastError w) = ((inr <$> errs) ++ [inl r])%list /\
        length errs < remaining) \/
     (exists e,
        retryable e = false /\
        completion (loopFrom remaining i lastError w) = Threw (Some e) /\
        attempts (loopFrom remaining i lastError w) = ((inr <$> errs) ++ [inr e])%list /\
        length errs < remaining) \/
     (completion (loopFrom remaining i lastError w)
        = Threw (match last errs with Some e => Some e | None => lastError end) /\
      attempts (loopFrom remaining i lastError w) = inr <$> errs /\
      length errs = remaining)).
Proof.
  revert i lastError w.
  induction remaining as [|n IH]; intros i lastError w.
  { exists []. split; [constructor|]. split; [done|]. right. right. done. }
  cbn [retryLoop]. destruct (fn w) as [[r|error] w'].
  { exists []. split; [constructor|]. split; [done|]. left. exists r.
    repeat split; [done..|cbn; lia]. }
  destruct (retryable error) eqn:Herr.
  - destruct (IH (S i) (Some error) w') as (errs & Hall & Hsl & Hend).
    exists (error :: errs). split; [by constructor|]. split.
    { cbn -[retryLoop]. rewrite Hsl, Nat.add_0_r. f_equal.
      rewrite <- fmap_S_seq, <- list_fmap_compose. apply list_fmap_ext.
      intros _ k _. cbn. by rewrite Nat.add_succ_r. }
    cbn -[retryLoop last].
    destruct Hend as [(r & Hc & Ha & Hl)|[(e & He & Hc & Ha & Hl)|(Hc & Ha & Hl)]].
    + left. exists r. rewrite Hc, Ha. repeat split; [done..|lia].
    + right. left. exists e. rewrite Hc, Ha. repeat split; [done..|lia].
    + right. right. rewrite Hc, Ha, Hl. repeat split; [|done..].
      rewrite last_cons. by destruct (last errs).
  - exists []. split; [constructor|]. split; [done|]. right. left.
    exists error. repeat split; [done..|cbn; lia].
Qed.

End WithRetryShape.

(** X4: the bound on attempts holds for every operation: the executor
    never invokes it more than [retries] times, invokes it at least once
    when [retries] is positive, and sleeps at most once per invocation.
    With [retries = 0] it invokes nothing and throws [undefined]. *)
Theorem X4_retry_attempt_bound {W R : Type} (fn : W -> (R + JsError) * W)
    (delay jitter : Q) (random : nat -> Q) (retries : nat) (w0 : W) :
  let run := withRetry fn delay jitter random retries w0 in
  calls run <= retries /\
  (if retries is O then completion run = Threw None else 1 <= calls run) /\
  length (sleeps run) <= calls run /\
  calls run <= S (length (sleeps run)).
Proof.
  intros run. unfold run, withRetry, calls.
  destruct (retryLoop_shape fn delay jitter random retries 0 None w0)
    as (errs & _ & Hsl & Hend).
  rewrite Hsl, length_fmap, length_seq.
  destruct Hend as [(r & Hc & Ha & Hl)|[(e & He & Hc & Ha & Hl)|(Hc & Ha & Hl)]];
    rewrite Ha, ?length_app, length_fmap; cbn [length].
  - repeat split; try lia. destruct retries; [lia|lia].
  - repeat split; try lia. destruct retries; [lia|lia].
  - repeat split; try lia. destruct retries; [|lia].
    destruct errs; [by rewrite Hc|done].
Qed.

(** X5: a result is returned exactly when the last invocation resolved
    with it; every invocation before that one failed with a retryable
    status and was followed by one backoff sleep, and the executor does not
    sleep after the successful one. *)
Theorem X5_retry_returns_last_result {W R : Type}
    (fn : W -> (R + JsError) * W) (delay jitter : Q) (random : nat -> Q)
    (retries : nat) (w0 : W) (r : R) :
  let run := withRetry fn delay jitter random retries w0 in
  (completion run = Returned r <-> last (attempts run) = Some (inl r)) /\
  (completion run = Returned r ->
     calls run = S (length (sleeps run)) /\
     forall k, k < length (sleeps run) ->
       exists e, attempts run !! k = Some (inr e) /\ retryable e = true).
Proof.
  intros run. unfold run, withRetry, calls.
  destruct (retryLoop_shape fn delay jitter random retries 0 None w0)
    as (errs & Hall & Hsl & Hend).
  rewrite Hsl, length_fmap, length_seq.
  destruct Hend as [(r' & Hc & Ha & Hl)|[(e & He & Hc & Ha & Hl)|(Hc & Ha & Hl)]];
    rewrite Hc, Ha.
  - rewrite last_snoc. split.
    + split; intros [= ->]; done.
    + intros _. rewrite length_app, length_fmap. cbn. split; [lia|].
      intros k Hk. destruct (lookup_lt_is_Some_2 errs k Hk) as [e He].
      exists e. split.
      * rewrite lookup_app_l by (by rewrite length_fmap).
        by rewrite list_lookup_fmap, He.
      * rewrite Forall_forall in Hall. apply Hall.
        by eapply list_elem_of_lookup_2.
  - rewrite last_snoc. split; [split; intros [=]|intros [=]].
  - split; [|intros [=]]. split; [intros [=]|].
    rewrite fmap_last. by destruct (last errs).
Qed.

Lemma X5_retry_returns_last_result_witness :
  let run := withRetry failsTwice 1000 200 (fun _ => (1 # 2)%Q) 3 0%nat in
  completion run = Returned "prices" /\
  calls run = S (length (sleeps run)).
Proof.
  cbv zeta. split; [reflexivity|].
  apply (proj2 (X5_retry_returns_last_result failsTwice 1000 200
                  (fun _ => (1 # 2)%Q) 3 0%nat "prices")).
  reflexivity.
Defined.

(** ** Backoff delays *)

Lemma pow2_pos k : (0 < pow2 k)%Q.
Proof.
  unfold pow2. change 0%Q with (inject_Z 0). rewrite <- Zlt_Qlt.
  apply Z.pow_pos_nonneg; lia.
Qed.

Lemma pow2_S k : (pow2 (S k) == 2 * pow2 k)%Q.
Proof.
  unfold pow2. rewrite Nat2Z.inj_succ, Z.pow_succ_r by lia.
  by rewrite inject_Z_mult.
Qed.

Lemma sum_snoc (l : list Q) (x : Q) :
  (fold_right Qplus 0 (l ++ [x]) == fold_right Qplus 0 l + x)%Q.
Proof.
  induction l as [|y l IH]; cbn; [ring|]. rewrite IH. ring.
Qed.

Section BackoffBounds.

Variable delay jitter : Q.
Variable random : nat -> Q.
Hypothesis delay_nonneg : (0 <= delay)%Q.
Hypothesis jitter_nonneg : (0 <= jitter)%Q.
Hypothesis random_unit : forall i, (0 <= random i)%Q /\ (random i < 1)%Q.

Lemma waitTime_bounds k :
  (delay * pow2 k <= waitTime delay jitter random k)%Q /\
  (waitTime delay jitter random k <= delay * pow2 k + jitter)%Q.
Proof.
  unfold waitTime. destruct (random_unit k) as [H0 H1].
  assert (Hlo : (0 <= random k * jitter)%Q) by by apply Qmult_le_0_compat.
  assert (Hhi : (random k * jitter <= 1 * jitter)%Q).
  { apply Qmult_le_compat_r; [|done]. by apply Qlt_le_weak. }
  split; lra.
Qed.

Lemma total_wait_step n :
  (delay * (pow2 n - 1) + inject_Z (Z.of_nat n) * jitter
   <= delay * (pow2 (S n) - 1) + inject_Z (Z.of_nat (S n)) * jitter)%Q.
Proof.
  rewrite pow2_S, Nat2Z.inj_succ. unfold Z.succ. rewrite inject_Z_plus.
  assert (Hp : (0 <= delay * pow2 n)%Q).
  { apply Qmult_le_0_compat; [done|]. apply Qlt_le_weak, pow2_pos. }
  change (inject_Z 1) with 1%Q. lra.
Qed.

Lemma total_wait_mono n m :
  n <= m ->
  (delay * (pow2 n - 1) + inject_Z (Z.of_nat n) * jitter
   <= delay * (pow2 m - 1) + inject_Z (Z.of_nat m) * jitter)%Q.
Proof.
  induction 1 as [|m _ IH]; [apply Qle_refl|].
  eapply Qle_trans; [exact IH|apply total_wait_step].
Qed.

Lemma total_wait_bound n :
  (fold_right Qplus 0 (waitTime delay jitter random <$> seq 0 n)
   <= delay * (pow2 n - 1) + inject_Z (Z.of_nat n) * jitter)%Q.
Proof.
  induction n as [|n IH].
  - cbn [seq fmap list_fmap fold_right]. unfold pow2.
    change (inject_Z (2 ^ Z.of_nat 0)) with 1%Q.
    change (inject_Z (Z.of_nat 0)) with 0%Q. lra.
  - rewrite seq_S, fmap_app, Nat.add_0_l. cbn [fmap list_fmap].
    rewrite sum_snoc.
    destruct (waitTime_bounds n) as [_ Hhi].
    rewrite pow2_S, Nat2Z.inj_succ. unfold Z.succ. rewrite inject_Z_plus.
    change (inject_Z 1) with 1%Q. lra.
Qed.

End BackoffBounds.

(** X6: with a nonnegative base delay and jitter and [Math.random] in
    [0, 1), the sleep after attempt [k] lies between [delay * 2^k] and
    [delay * 2^k + jitter], and a run never waits longer in total than
    [delay * (2^retries - 1) + retries * jitter]. *)
Theorem X6_retry_backoff_bounds {W R : Type} (fn : W -> (R + JsError) * W)
    (delay jitter : Q) (random : nat -> Q) (retries : nat) (w0 : W) :
  (0 <= delay)%Q -> (0 <= jitter)%Q ->
  (forall i, (0 <= random i)%Q /\ (random i < 1)%Q) ->
  let run := withRetry fn delay jitter random retries w0 in
  (forall k d, sleeps run !! k = Some d ->
     (delay * pow2 k <= d)%Q /\ (d <= delay * pow2 k + jitter)%Q) /\
  (fold_right Qplus 0 (sleeps run)
   <= delay * (pow2 retries - 1) + inject_Z (Z.of_nat retries) * jitter)%Q.
Proof.
  intros Hd Hj Hr run. unfold run, withRetry.
  destruct (retryLoop_shape fn delay jitter random retries 0 None w0)
    as (errs & _ & Hsl & Hend).
  assert (Hlen : length errs <= retries).
  { destruct Hend as [(? & _ & _ & ?)|[(? & _ & _ & _ & ?)|(_ & _ & ?)]]; lia. }
  rewrite Hsl. cbn [Nat.add]. split.
  - intros k d Hk. rewrite list_lookup_fmap in Hk.
    destruct (seq 0 (length errs) !! k) as [k'|] eqn:Hseq; [|done].
    apply lookup_seq in Hseq as [-> _]. cbn in Hk. injection Hk as <-.
    by apply waitTime_bounds.
  - eapply Qle_trans; [by apply total_wait_bound|].
    by apply total_wait_mono.
Qed.

(** With the defaults and [Math.random] at one half, the three attempts of
    an operation that is always down are followed by sleeps of 1100, 2100
    and 4100 ms, within the bound of 7600 ms. *)
Lemma X6_retry_backoff_bounds_witness :
  let run := withRetry alwaysDown 1000 200 (fun _ => (1 # 2)%Q) 3 0%nat in
  (fold_right Qplus 0 (sleeps run)
   <= 1000 * (pow2 3 - 1) + inject_Z (Z.of_nat 3) * 200)%Q.
Proof.
  assert (H0 : (0 <= 1000)%Q) by discriminate.
  assert (H1 : (0 <= 200)%Q) by discriminate.
  assert (H2 : forall i : nat, (0 <= 1 # 2)%Q /\ (1 # 2 < 1)%Q) by done.
  exact (proj2 (X6_retry_backoff_bounds alwaysDown 1000 200
                  (fun _ => (1 # 2)%Q) 3 0%nat H0 H1 H2)).
Defined.

Lemma retryLoop_exhausted_sleeps {W R : Type} (fn : W -> (R + JsError) * W)
    (delay jitter : Q) (random : nat -> Q) remaining i lastError w :
  (forall k, k < remaining ->
     exists e, (fn (worldBefore fn k w)).1 = inr e /\ retryable e = true) ->
  sleeps (retryLoop fn delay jitter random remaining i lastError w)
  = (fun k => waitTime delay jitter random (i + k)) <$> seq 0 remaining.
Proof.
  revert i lastError w.
  induction remaining as [|n IH]; intros i lastError w Hfail; [done|].
  destruct (Hfail 0 ltac:(lia)) as (e & He & Hr). cbn in He.
  cbn [retryLoop]. destruct (fn w) as [[r|error] w'] eqn:Hfn; [done|].
  cbn in He. injection He as ->. rewrite Hr. cbn -[retryLoop].
  rewrite Nat.add_0_r. f_equal. rewrite IH.
  - rewrite <- fmap_S_seq, <- list_fmap_compose. apply list_fmap_ext.
    intros _ k _. cbn. by rewrite Nat.add_succ_r.
  - intros k Hk. destruct (Hfail (S k) ltac:(lia)) as (e' & He' & Hr').
    rewrite worldBefore_S, Hfn in He'. eauto.
Qed.

(** X7: when every attempt fails with a retryable status, the executor
    sleeps after each of them, the last one included: it spends the
    longest backoff delay, [delay * 2^(retries - 1)] plus jitter, and only
    then throws. *)
Theorem X7_retry_sleeps_before_giving_up {W R : Type}
    (fn : W -> (R + JsError) * W) (delay jitter : Q) (random : nat -> Q)
    (retries : nat) (w0 : W) :
  (forall k, k < retries ->
     exists e, (fn (worldBefore fn k w0)).1 = inr e /\ retryable e = true) ->
  let run := withRetry fn delay jitter random retries w0 in
  sleeps run = (fun k => (delay * pow2 k + random k * jitter)%Q) <$> seq 0 retries /\
  length (sleeps run) = calls run.
Proof.
  intros Hfail run. unfold run, withRetry.
  destruct (retryLoop_exhausted fn delay jitter random retries 0 None w0 Hfail)
    as [Hcalls _].
  rewrite Hcalls, (retryLoop_exhausted_sleeps fn delay jitter random _ _ _ _ Hfail).
  split; [done|]. by rewrite length_fmap, length_seq.
Qed.

Lemma X7_retry_sleeps_before_giving_up_witness :
  let run := withRetry alwaysDown 1000 200 (fun _ => (1 # 2)%Q) 3 0%nat in
  length (sleeps run) = calls run.
Proof.
  assert (H : forall k, k < 3 ->
            exists e, (alwaysDown (worldBefore alwaysDown k 0%nat)).1 = inr e /\
                      retryable e = true).
  { intros k _. eexists. split; reflexivity. }
  exact (proj2 (X7_retry_sleeps_before_giving_up alwaysDown 1000 200
                  (fun _ => (1 # 2)%Q) 3 0%nat H)).
Defined.

(** ** The normalisation loop *)

Section NormalizationFacts.

Variable usdToTomanRate rubToTomanRate : Q.
Variable servicePriority : gmap string PriorityInfo.
Variable getCountryData : string -> option CountryData.

Abbreviation normalizeRec :=
  (normalize usdToTomanRate rubToTomanRate servicePriority getCountryData).
Abbreviation processRec :=
  (processRecord usdToTomanRate rubToTomanRate servicePriority getCountryData).

Lemma unknownServiceCodes_fold l st :
  unknownServiceCodes (fold_left processRec l st)
  = list_to_set (service <$> filter (fun s => notesUnknown servicePriority s = true) l)
    ∪ unknownServiceCodes st.
Proof.
  revert st. induction l as [|s l IH]; intros st.
  - change (unknownServiceCodes st = ∅ ∪ unknownServiceCodes st).
    by rewrite (left_id_L ∅ (∪)).
  - cbn [fold_left]. rewrite IH, unknownServiceCodes_processRecord.
    rewrite filter_cons. destruct (notesUnknown servicePriority s) eqn:Hs.
    + rewrite decide_True by done. rewrite fmap_cons, list_to_set_cons.
      rewrite (assoc_L (∪)). f_equal. apply (comm_L (∪)).
    + rewrite decide_False by congruence. done.
Qed.


Lemma pushGroup_keys m k v :
  (pushGroup m k v).*1 = if decide (k ∈ m.*1) then m.*1 else (m.*1 ++ [k])%list.
Proof.
  induction m as [|[k' vs] r IH]; [done|].
  cbn [pushGroup]. destruct (String.eqb_spec k' k) as [->|Hne].
  - cbn. rewrite decide_True; [done|]. apply elem_of_cons. by left.
  - cbn [fmap list_fmap fst]. rewrite IH.
    destruct (decide (k ∈ r.*1)) as [Hin|Hnin].
    + rewrite decide_True; [done|]. apply elem_of_cons. by right.
    + rewrite decide_False; [done|].
      intros [?|?]%elem_of_cons; [congruence|done].
Qed.

Lemma elem_of_pushGroup m k v k' vs' :
  (k', vs') ∈ pushGroup m k v ->
  (k', vs') ∈ m \/
  (k' = k /\ exists vs, vs' = (vs ++ [v])%list /\ (vs = [] \/ (k, vs) ∈ m)).
Proof.
  induction m as [|[k0 vs0] r IH]; cbn [pushGroup].
  - intros [= -> ->]%list_elem_of_singleton. right. split; [done|].
    exists []. split; [done|by left].
  - destruct (String.eqb_spec k0 k) as [->|Hne].
    + intros [[= -> ->]|Hin]%elem_of_cons.
      * right. split; [done|]. exists vs0. split; [done|]. right.
        apply elem_of_cons. by left.
      * left. apply elem_of_cons. by right.
    + intros [[= -> ->]|Hin]%elem_of_cons.
      * left. apply elem_of_cons. by left.
      * destruct (IH Hin) as [Hm|(-> & vs & -> & [->|Hm])].
        -- left. apply elem_of_cons. by right.
        -- right. split; [done|]. exists []. split; [done|by left].
        -- right. split; [done|]. exists vs. split; [done|]. right.
           apply elem_of_cons. by right.
Qed.

Lemma pushGroup_wellGrouped m f :
  wellGrouped m -> wellGrouped (pushGroup m (mapKey f) f).
Proof.
  intros [Hnd Hgroups]. split.
  - rewrite pushGroup_keys. case_decide as Hin; [done|].
    apply NoDup_app. split; [done|]. split; [|apply NoDup_singleton].
    intros x Hx ->%list_elem_of_singleton. done.
  - intros k vs Hk. apply elem_of_pushGroup in Hk
      as [Hm|(-> & vs0 & -> & Hvs0)]; [by apply Hgroups|].
    split; [by destruct vs0|].
    intros g [Hg|Hg%list_elem_of_singleton]%elem_of_app; [|by subst g].
    destruct Hvs0 as [->|Hm]; [by apply elem_of_nil in Hg|].
    by apply (Hgroups _ _ Hm).
Qed.

Lemma wellGrouped_tail k vs r :
  wellGrouped ((k, vs) :: r) -> wellGrouped r /\ k ∉ r.*1.
Proof.
  intros [Hnd Hgroups]. cbn in Hnd. apply NoDup_cons in Hnd as [Hk Hnd].
  split; [|done]. split; [done|].
  intros k' vs' Hin. apply Hgroups. apply elem_of_cons. by right.
Qed.

Lemma filter_none {A : Type} (P : A -> Prop) `{!forall x, Decision (P x)}
    (l : list A) :
  (forall x, x ∈ l -> ~ P x) -> filter P l = [].
Proof.
  induction l as [|x l IH]; intros Hl; [done|].
  rewrite filter_cons_False by (apply Hl, elem_of_cons; by left).
  apply IH. intros y Hy. apply Hl, elem_of_cons. by right.
Qed.

Lemma filter_key_absent m k :
  wellGrouped m -> k ∉ m.*1 ->
  filter (fun f => mapKey f = k) (flattenGroups m) = [].
Proof.
  unfold flattenGroups.
  induction m as [|[k' vs] r IH]; intros Hwg Hk; [done|].
  destruct (wellGrouped_tail _ _ _ Hwg) as [Hr _].
  cbn [map concat snd]. rewrite filter_app, IH; [|done|].
  - rewrite app_nil_r. apply filter_none.
    intros f Hf Hkey. apply Hk. cbn. apply elem_of_cons. left.
    destruct Hwg as [_ Hg]. rewrite <- Hkey.
    destruct (Hg k' vs) as [_ Hvs]; [apply elem_of_cons; by left|].
    by rewrite (Hvs f Hf).
  - intros Hin. apply Hk. cbn. apply elem_of_cons. by right.
Qed.

Lemma filter_key_pushGroup m v k :
  wellGrouped m ->
  filter (fun f => mapKey f = k) (flattenGroups (pushGroup m (mapKey v) v))
  = filter (fun f => mapKey f = k) (flattenGroups m ++ [v])%list.
Proof.
  unfold flattenGroups.
  induction m as [|[k' vs] r IH]; intros Hwg; [done|].
  destruct (wellGrouped_tail _ _ _ Hwg) as [Hr Hk'].
  cbn [pushGroup]. destruct (String.eqb_spec k' (mapKey v)) as [->|Hne].
  - cbn [map concat snd]. rewrite !filter_app.
    destruct (decide (mapKey v = k)) as [<-|Hk].
    + pose proof (filter_key_absent r (mapKey v) Hr Hk') as Habs.
      unfold flattenGroups in Habs. rewrite Habs.
      by rewrite !app_nil_r.
    + rewrite (filter_cons_False _ v []) by done. cbn [filter list_filter].
      by rewrite !app_nil_r.
  - cbn [map concat snd]. rewrite !filter_app, IH by done.
    rewrite filter_app. by rewrite app_assoc.
Qed.

Lemma serviceMap_fold_wellGrouped l st :
  wellGrouped (serviceMap st) ->
  wellGrouped (serviceMap (fold_left processRec l st)).
Proof.
  revert st. induction l as [|s l IH]; intros st Hwg; [done|].
  cbn [fold_left]. apply IH. rewrite serviceMap_processRecord.
  destruct (normalizeRec s) as [f|]; [|done].
  by apply pushGroup_wellGrouped.
Qed.

Lemma filter_key_fold l st k :
  wellGrouped (serviceMap st) ->
  filter (fun f => mapKey f = k)
    (flattenGroups (serviceMap (fold_left processRec l st)))
  = filter (fun f => mapKey f = k)
      (flattenGroups (serviceMap st) ++ omap normalizeRec l)%list.
Proof.
  revert st. induction l as [|s l IH]; intros st Hwg.
  - cbn. by rewrite app_nil_r.
  - cbn [fold_left]. rewrite IH.
    + rewrite serviceMap_processRecord. cbn [omap list_omap].
      destruct (normalizeRec s) as [f|]; [|done].
      rewrite !filter_app, filter_key_pushGroup by done.
      rewrite filter_app, <- app_assoc. f_equal.
      by rewrite <- filter_app.
    + rewrite serviceMap_processRecord.
      destruct (normalizeRec s) as [f|]; [|done].
      by apply pushGroup_wellGrouped.
Qed.

End NormalizationFacts.

Lemma wellGrouped_nil : wellGrouped [].
Proof. split; [constructor|]. intros k vs Hin. by apply elem_of_nil in Hin. Qed.

(** X8: at the end of the loop [unknownServiceCodes] holds the service
    codes of the records without a usable name or without a priority
    entry, whether or not those records were dropped for their country or
    their price: the set depends on neither the rates nor the resolver. *)
Theorem X8_unknown_service_codes
    (usd rub : Q) (servicePriority : gmap string PriorityInfo)
    (resolve : string -> option CountryData) (raw : list RawService) :
  unknownServiceCodes (normalizeAll usd rub servicePriority resolve raw)
  = list_to_set
      (service <$> filter (fun s => notesUnknown servicePriority s = true) raw).
Proof.
  unfold normalizeAll. rewrite unknownServiceCodes_fold.
  apply (right_id_L ∅ (∪)).
Qed.

(** X9: the grouping [Map] is well formed after every run: its keys are
    distinct, no group is empty, and each group holds documents whose
    Persian service and country names make up its key. *)
Theorem X9_groups_well_formed
    (usd rub : Q) (servicePriority : gmap string PriorityInfo)
    (resolve : string -> option CountryData) (raw : list RawService) :
  wellGrouped (serviceMap (normalizeAll usd rub servicePriority resolve raw)).
Proof. apply serviceMap_fold_wellGrouped, wellGrouped_nil. Qed.

(** X10: grouping is stable.  The documents of one group come out in the
    order in which their raw records came in: restricted to any group key,
    the output equals the list of documents built record by record. *)
Theorem X10_grouping_is_stable
    (usd rub : Q) (servicePriority : gmap string PriorityInfo)
    (resolve : string -> option CountryData) (raw : list RawService)
    (key : string) :
  filter (fun f => mapKey f = key)
    (formattedServices usd rub servicePriority resolve raw)
  = filter (fun f => mapKey f = key)
      (omap (normalize usd rub servicePriority resolve) raw).
Proof.
  unfold formattedServices, normalizeAll.
  rewrite filter_key_fold by apply wellGrouped_nil. done.
Qed.

(** ** Prices *)

Local Open Scope Q_scope.

(** The roundings in [Math.ceil((c * r) * 1.4)] move a product below
    [2 ^ 50] by at most one. *)
Lemma product_bounds (c r : Q) :
  0 < c -> 0 < r -> c * r * (14 # 10) <= 2 ^ 50 ->
  let t := mul64 (mul64 (round64 c) (round64 r)) (round64 (14 # 10)) in
  0 < t /\ c * r * (14 # 10) - 1 <= t <= c * r * (14 # 10) + 1.
Proof.
  intros Hc Hr HX t. unfold t, mul64.
  destruct (round64_bounds c Hc) as [Hc1 Hc2].
  destruct (round64_bounds r Hr) as [Hr1 Hr2].
  pose proof (round64_pos c Hc) as Hc0. pose proof (round64_pos r Hr) as Hr0.
  set (c' := round64 c) in *. set (r' := round64 r) in *.
  assert (Hp0 : 0 < c' * r') by (apply Qmult_lt_0_compat; assumption).
  destruct (round64_bounds _ Hp0) as [Hb1 Hb2].
  pose proof (round64_pos _ Hp0) as Hb0.
  set (b := round64 (c' * r')) in *.
  assert (Hk : (14 # 10) * (1 - unitRoundoff) <= round64 (14 # 10) <= 14 # 10).
  { split; vm_compute; discriminate. }
  assert (Hk0 : 0 < round64 (14 # 10)) by reflexivity.
  set (k := round64 (14 # 10)) in *.
  assert (Hx0 : 0 < b * k) by (apply Qmult_lt_0_compat; assumption).
  destruct (round64_bounds _ Hx0) as [Hx1 Hx2].
  pose proof (round64_pos _ Hx0) as Hx0'.
  set (x := round64 (b * k)) in *.
  set (X := c * r * (14 # 10)) in *.
  assert (HL : 0 < 1 - unitRoundoff <= 1) by (split; [reflexivity|discriminate]).
  assert (HU : 1 <= 1 + unitRoundoff) by discriminate.
  set (L := 1 - unitRoundoff) in *. set (U := 1 + unitRoundoff) in *.
  assert (Hup : x <= X * (U * U * U * U)).
  { assert (H1 : c' * r' <= c * U * (r * U))
      by (apply Qmult_le_compat_nonneg; split; lra).
    assert (H2 : b <= c * U * (r * U) * U).
    { apply Qle_trans with (c' * r' * U); [exact Hb2|].
      apply Qmult_le_compat_r; lra. }
    assert (H3 : b * k <= c * U * (r * U) * U * (14 # 10))
      by (apply Qmult_le_compat_nonneg; split; lra).
    assert (H4 : x <= c * U * (r * U) * U * (14 # 10) * U).
    { apply Qle_trans with (b * k * U); [exact Hx2|].
      apply Qmult_le_compat_r; lra. }
    assert (H5 : c * U * (r * U) * U * (14 # 10) * U == X * (U * U * U * U))
      by (unfold X; ring).
    lra. }
  assert (Hdn : X * (L * L * L * L * L) <= x).
  { assert (HcL : 0 <= c * L) by (apply Qmult_le_0_compat; lra).
    assert (HrL : 0 <= r * L) by (apply Qmult_le_0_compat; lra).
    assert (H1 : c * L * (r * L) <= c' * r')
      by (apply Qmult_le_compat_nonneg; split; lra).
    assert (H1' : 0 <= c * L * (r * L)) by (apply Qmult_le_0_compat; lra).
    assert (H2 : c * L * (r * L) * L <= b).
    { apply Qle_trans with (c' * r' * L); [|exact Hb1].
      apply Qmult_le_compat_r; lra. }
    assert (H2' : 0 <= c * L * (r * L) * L) by (apply Qmult_le_0_compat; lra).
    assert (H3 : c * L * (r * L) * L * ((14 # 10) * L) <= b * k).
    { apply Qmult_le_compat_nonneg; split; lra. }
    assert (H4 : c * L * (r * L) * L * ((14 # 10) * L) * L <= x).
    { apply Qle_trans with (b * k * L); [|exact Hx1].
      apply Qmult_le_compat_r; lra. }
    assert (H5 : c * L * (r * L) * L * ((14 # 10) * L) * L
                 == X * (L * L * L * L * L)) by (unfold X; ring).
    lra. }
  assert (HX0 : 0 <= X).
  { unfold X. apply Qmult_le_0_compat; [apply Qmult_le_0_compat; lra|discriminate]. }
  assert (Hsmall1 : X * (U * U * U * U) <= X + 1).
  { assert (Hd : 2 ^ 50 * (U * U * U * U - 1) <= 1) by (vm_compute; discriminate).
    assert (0 <= U * U * U * U - 1) by (vm_compute; discriminate).
    set (d := U * U * U * U - 1) in *.
    assert (X * d <= 2 ^ 50 * d) by (apply Qmult_le_compat_r; assumption).
    assert (X * (U * U * U * U) == X + X * d) by (unfold d; ring).
    lra. }
  assert (Hsmall2 : X - 1 <= X * (L * L * L * L * L)).
  { assert (Hd : 2 ^ 50 * (1 - L * L * L * L * L) <= 1) by (vm_compute; discriminate).
    assert (0 <= 1 - L * L * L * L * L) by (vm_compute; discriminate).
    set (d := 1 - L * L * L * L * L) in *.
    assert (X * d <= 2 ^ 50 * d) by (apply Qmult_le_compat_r; assumption).
    assert (X * (L * L * L * L * L) == X - X * d) by (unfold d; ring).
    lra. }
  split; [exact Hx0'|lra].
Qed.

Lemma ceil_product_accuracy (c r : Q) :
  0 < c -> 0 < r -> c * r * (14 # 10) <= 2 ^ 50 ->
  (Qceiling (c * r * (14 # 10)) - 1
   <= Qceiling (mul64 (mul64 (round64 c) (round64 r)) (round64 (14 # 10)))
   <= Qceiling (c * r * (14 # 10)) + 1)%Z.
Proof.
  intros Hc Hr HX. apply ceil_close.
  exact (proj2 (product_bounds c r Hc Hr HX)).
Qed.

Local Close Scope Q_scope.

(** X11: the published price is within one toman of the exact price with
    margin.  For a published record whose cost [c] and rate [r] are at
    least [2 ^ -64], with [c * r * 1.4] at most [2 ^ 50], the published
    price differs from the least integer that is at least [c * r * 1.4] by
    at most one: the two binary64 products are rounded, and the double
    nearest to 1.4 is not 1.4. *)
Theorem X11_published_price_bounds
    (usdToTomanRate rubToTomanRate : Q)
    (servicePriority : gmap string PriorityInfo)
    (resolve : string -> option CountryData) (s : RawService) (f : Service) :
  normalize usdToTomanRate rubToTomanRate servicePriority resolve s = Some f ->
  let cost := numberOrZero (price s) in
  let rate := if String.eqb (provider s) "sms-activate"
              then usdToTomanRate else rubToTomanRate in
  (1 # 2 ^ 64 <= cost)%Q -> (1 # 2 ^ 64 <= rate)%Q ->
  (cost * rate * (14 # 10) <= 2 ^ 50)%Q ->
  (Qceiling (cost * rate * (14 # 10)) - 1 <= price_toman f
   <= Qceiling (cost * rate * (14 # 10)) + 1)%Z.
Proof.
  intros Hnorm cost rate Hcost Hrate Hrange.
  destruct (normalize_Some _ _ _ _ _ _ Hnorm) as (cd & _ & _ & ->).
  cbn [price_toman formattedService]. unfold finalPriceToman, basePriceDouble.
  assert (Hc : (0 < cost)%Q) by (eapply Qlt_le_trans; [|exact Hcost]; reflexivity).
  assert (Hr : (0 < rate)%Q) by (eapply Qlt_le_trans; [|exact Hrate]; reflexivity).
  pose proof (ceil_product_accuracy cost rate Hc Hr Hrange) as Hacc.
  unfold cost, rate in *. by destruct (String.eqb _ _).
Qed.

Lemma X11_published_price_bounds_witness :
  let f := formattedService 58000 625 samplePriority fiveSimTelegramCheap
             (mkCountryData "Rusiye" "RU" "Russia") in
  normalize 58000 625 samplePriority sampleResolver fiveSimTelegramCheap
  = Some f /\
  price_toman f = 246%Z /\
  (245 - 1 <= price_toman f <= 245 + 1)%Z.
Proof.
  cbv zeta. split; [vm_compute; reflexivity|].
  split; [vm_compute; reflexivity|].
  assert (H1 : (1 # 2 ^ 64 <= 28 # 100)%Q) by (vm_compute; discriminate).
  assert (H2 : (1 # 2 ^ 64 <= 625)%Q) by (vm_compute; discriminate).
  assert (H3 : ((28 # 100) * 625 * (14 # 10) <= 2 ^ 50)%Q)
    by (vm_compute; discriminate).
  exact (X11_published_price_bounds 58000 625 samplePriority sampleResolver
           fiveSimTelegramCheap _ eq_refl H1 H2 H3).
Defined.

(** X12: with nonnegative rates, a record whose cost is missing, not a
    number, zero or negative is never published, and neither is any record
    of a provider whose rate is zero (the value the rates have before they
    are fetched). *)
Theorem X12_worthless_records_dropped
    (usdToTomanRate rubToTomanRate : Q)
    (servicePriority : gmap string PriorityInfo)
    (resolve : string -> option CountryData) (s : RawService) :
  (0 <= usdToTomanRate)%Q -> (0 <= rubToTomanRate)%Q ->
  (numberOrZero (price s) <= 0)%Q \/
  (if String.eqb (provider s) "sms-activate"
   then usdToTomanRate == 0 else rubToTomanRate == 0)%Q ->
  normalize usdToTomanRate rubToTomanRate servicePriority resolve s = None.
Proof.
  intros Husd Hrub Hcase. unfold normalize.
  destruct (truthy _); [|done]. destruct (resolve _); [|done].
  assert (Hbase : (basePriceToman usdToTomanRate rubToTomanRate s <= 0)%Q).
  { unfold basePriceToman.
    destruct (String.eqb (provider s) "sms-activate");
      (destruct Hcase as [Hc|Hr]; [nra|rewrite Hr; lra]). }
  apply Qle_bool_iff in Hbase. by rewrite Hbase.
Qed.

(** A record whose cost does not convert to a number. *)
Lemma X12_worthless_records_dropped_witness :
  normalize 58000 630 samplePriority sampleResolver
    (mkRaw "5sim" "russia" "telegram" None "any" None 5 0) = None.
Proof.
  assert (H0 : (0 <= 58000)%Q) by discriminate.
  assert (H1 : (0 <= 630)%Q) by discriminate.
  refine (X12_worthless_records_dropped 58000 630 samplePriority
            sampleResolver _ H0 H1 _).
  left. discriminate.
Defined.

(** ** The publisher, run to its end *)

Lemma publish_keeps_other_collections
    (validates : Service -> bool) (formatted : list Service)
    (db : gmap string (list Service)) (c : string) :
  c ≠ live -> c ≠ shadow ->
  store (publishRun validates formatted 4 (mkPublish Connected db)) !! c
  = db !! c.
Proof.
  intros Hl Hs. rewrite stateAfter_4. cbn [store].
  rewrite lookup_insert_ne, lookup_delete_ne by done.
  assert (Hins : insertMany validates shadow formatted (deleteMany shadow db) !! c
                 = db !! c).
  { unfold insertMany, deleteMany.
    rewrite lookup_insert_ne by done. rewrite lookup_alter. by case_decide. }
  unfold dropCollection.
  destruct (insertMany validates shadow formatted (deleteMany shadow db)
              !! live) eqn:Hlive; cbn; [|exact Hins].
  by rewrite lookup_delete_ne.
Qed.

(** X13: from any store the four operations of the publisher go through:
    the rename is never rejected, also when no live collection exists yet.
    Afterwards the live collection holds the validated documents of the
    run, the shadow collection is gone, every other collection is as it
    was, and nothing of the prior catalog is left. *)
Theorem X13_publish_completes
    (validates : Service -> bool) (formatted : list Service)
    (db : gmap string (list Service)) :
  let final := publishRun validates formatted 4 (mkPublish Connected db) in
  phase final = Renamed /\
  publishNext validates formatted final = None /\
  store final !! live = Some (filter (fun d => validates d = true) formatted) /\
  store final !! shadow = None /\
  forall c, c ≠ live -> c ≠ shadow -> store final !! c = db !! c.
Proof.
  intros final.
  assert (Hother : forall c, c ≠ live -> c ≠ shadow -> store final !! c = db !! c)
    by apply publish_keeps_other_collections.
  unfold final in *. rewrite stateAfter_4 in *. cbn [phase store] in *.
  split; [done|]. split; [done|]. split; [apply lookup_insert_eq|].
  split; [|exact Hother].
  rewrite lookup_insert_ne by done. apply lookup_delete_eq.
Qed.

(** X14: publishing is idempotent: a second publish of the same documents
    leaves the store exactly as the first one left it. *)
Theorem X14_publish_idempotent
    (validates : Service -> bool) (formatted : list Service)
    (db : gmap string (list Service)) :
  let once := publishRun validates formatted 4 (mkPublish Connected db) in
  let twice := publishRun validates formatted 4
                 (mkPublish Connected (store once)) in
  twice = once.
Proof.
  intros once twice.
  assert (Hother : forall c, c ≠ live -> c ≠ shadow ->
                             store twice !! c = store once !! c)
    by apply publish_keeps_other_collections.
  unfold twice in *. rewrite (stateAfter_4 validates formatted (store once)) in *.
  unfold once in *. rewrite (stateAfter_4 validates formatted db) in *.
  cbn [store] in *. f_equal. apply map_eq. intros c.
  destruct (decide (c = live)) as [->|Hl]; [by rewrite !lookup_insert_eq|].
  destruct (decide (c = shadow)) as [->|Hs].
  - rewrite !(lookup_insert_ne _ live shadow) by done.
    by rewrite !lookup_delete_eq.
  - by apply Hother.
Qed.

(** ** The stand-alone converter *)

Local Open Scope Q_scope.

(** Six roundings of numbers below [2 ^ 50] move the quotient by less than
    one, and the last product, of integers below [2 ^ 53], is exact. *)
Lemma converter_accuracy (c : Q) (currency : string) (rates : Rates) :
  let rate := if String.eqb currency "RUB" then rub rates
              else if String.eqb currency "USD" then usd rates else 1 in
  0 < c -> 0 < rate -> c * rate * (14 # 10) <= 2 ^ 50 ->
  let ideal := Qceiling (c * rate * (1 + (4 # 10)) / 100) in
  exists k : Z,
    convertToToman None None c currency rates = (k * 100)%Z /\
    (ideal - 1 <= k <= ideal + 1)%Z.
Proof.
  intros rate Hc Hr HX ideal. unfold convertToToman. fold rate.
  cbn [ROUNDING_PRECISION PROFIT_MARGIN]. cbv zeta.
  assert (Hunit : round64 (inject_Z 100) = 100) by (vm_compute; reflexivity).
  rewrite Hunit. unfold div64, mul64.
  destruct (round64_bounds c Hc) as [Hc1 Hc2].
  destruct (round64_bounds rate Hr) as [Hr1 Hr2].
  pose proof (round64_pos c Hc) as Hc0. pose proof (round64_pos rate Hr) as Hr0.
  set (c' := round64 c) in *. set (r' := round64 rate) in *.
  assert (Hp0 : 0 < c' * r') by (apply Qmult_lt_0_compat; assumption).
  destruct (round64_bounds _ Hp0) as [Hb1 Hb2].
  pose proof (round64_pos _ Hp0) as Hb0.
  set (b := round64 (c' * r')) in *.
  assert (Hk : (14 # 10) * (1 - unitRoundoff) <= add64 1 (round64 (4 # 10))
               <= (14 # 10) * (1 + unitRoundoff)).
  { split; vm_compute; discriminate. }
  assert (Hk0 : 0 < add64 1 (round64 (4 # 10))) by reflexivity.
  set (k := add64 1 (round64 (4 # 10))) in *.
  assert (Ht0 : 0 < b * k) by (apply Qmult_lt_0_compat; assumption).
  destruct (round64_bounds _ Ht0) as [Ht1 Ht2].
  pose proof (round64_pos _ Ht0) as Ht0'.
  set (t := round64 (b * k)) in *.
  assert (Hw0 : 0 < t / 100) by (apply Qlt_shift_div_l; [reflexivity|lra]).
  destruct (round64_bounds _ Hw0) as [Hw1 Hw2].
  pose proof (round64_pos _ Hw0) as Hw0'.
  set (w := round64 (t / 100)) in *.
  set (E := c * rate * (1 + (4 # 10)) / 100) in *.
  assert (HE : E == c * rate * (14 # 10) * (1 # 100)) by (unfold E; field).
  assert (HL : 0 < 1 - unitRoundoff <= 1) by (split; [reflexivity|discriminate]).
  assert (HU : 1 <= 1 + unitRoundoff) by discriminate.
  set (L := 1 - unitRoundoff) in *. set (U := 1 + unitRoundoff) in *.
  assert (Hdiv : t / 100 == t * (1 # 100)) by field.
  assert (Hup : w <= E * (U * U * U * U * U * U)).
  { assert (H1 : c' * r' <= c * U * (rate * U))
      by (apply Qmult_le_compat_nonneg; split; lra).
    assert (H2 : b <= c * U * (rate * U) * U).
    { apply Qle_trans with (c' * r' * U); [exact Hb2|].
      apply Qmult_le_compat_r; lra. }
    assert (H3 : b * k <= c * U * (rate * U) * U * ((14 # 10) * U))
      by (apply Qmult_le_compat_nonneg; split; lra).
    assert (H4 : t <= c * U * (rate * U) * U * ((14 # 10) * U) * U).
    { apply Qle_trans with (b * k * U); [exact Ht2|].
      apply Qmult_le_compat_r; lra. }
    assert (H5 : w <= c * U * (rate * U) * U * ((14 # 10) * U) * U * (1 # 100) * U).
    { apply Qle_trans with (t / 100 * U); [exact Hw2|].
      apply Qmult_le_compat_r; [|lra]. rewrite Hdiv.
      apply Qmult_le_compat_r; [exact H4|discriminate]. }
    assert (H6 : c * U * (rate * U) * U * ((14 # 10) * U) * U * (1 # 100) * U
                 == E * (U * U * U * U * U * U)) by (rewrite HE; ring).
    lra. }
  assert (Hdn : E * (L * L * L * L * L * L) <= w).
  { assert (HcL : 0 <= c * L) by (apply Qmult_le_0_compat; lra).
    assert (HrL : 0 <= rate * L) by (apply Qmult_le_0_compat; lra).
    assert (H1 : c * L * (rate * L) <= c' * r')
      by (apply Qmult_le_compat_nonneg; split; lra).
    assert (H1' : 0 <= c * L * (rate * L)) by (apply Qmult_le_0_compat; lra).
    assert (H2 : c * L * (rate * L) * L <= b).
    { apply Qle_trans with (c' * r' * L); [|exact Hb1].
      apply Qmult_le_compat_r; lra. }
    assert (H2' : 0 <= c * L * (rate * L) * L) by (apply Qmult_le_0_compat; lra).
    assert (H3 : c * L * (rate * L) * L * ((14 # 10) * L) <= b * k)
      by (apply Qmult_le_compat_nonneg; split; lra).
    assert (H4 : c * L * (rate * L) * L * ((14 # 10) * L) * L <= t).
    { apply Qle_trans with (b * k * L); [|exact Ht1].
      apply Qmult_le_compat_r; lra. }
    assert (H5 : c * L * (rate * L) * L * ((14 # 10) * L) * L * (1 # 100) * L <= w).
    { apply Qle_trans with (t / 100 * L); [|exact Hw1].
      apply Qmult_le_compat_r; [|lra]. rewrite Hdiv.
      apply Qmult_le_compat_r; [exact H4|discriminate]. }
    assert (H6 : c * L * (rate * L) * L * ((14 # 10) * L) * L * (1 # 100) * L
                 == E * (L * L * L * L * L * L)) by (rewrite HE; ring).
    lra. }
  assert (HE0 : 0 <= E).
  { rewrite HE. repeat apply Qmult_le_0_compat; try lra; discriminate. }
  assert (HEmax : E <= 2 ^ 50 * (1 # 100)).
  { rewrite HE. apply Qmult_le_compat_r; [exact HX|discriminate]. }
  assert (Hsmall1 : E * (U * U * U * U * U * U) <= E + 1).
  { assert (Hd : 2 ^ 50 * (1 # 100) * (U * U * U * U * U * U - 1) <= 1)
      by (vm_compute; discriminate).
    assert (0 <= U * U * U * U * U * U - 1) by (vm_compute; discriminate).
    set (d := U * U * U * U * U * U - 1) in *.
    assert (E * d <= 2 ^ 50 * (1 # 100) * d) by (apply Qmult_le_compat_r; assumption).
    assert (E * (U * U * U * U * U * U) == E + E * d) by (unfold d; ring).
    lra. }
  assert (Hsmall2 : E - 1 <= E * (L * L * L * L * L * L)).
  { assert (Hd : 2 ^ 50 * (1 # 100) * (1 - L * L * L * L * L * L) <= 1)
      by (vm_compute; discriminate).
    assert (0 <= 1 - L * L * L * L * L * L) by (vm_compute; discriminate).
    set (d := 1 - L * L * L * L * L * L) in *.
    assert (E * d <= 2 ^ 50 * (1 # 100) * d) by (apply Qmult_le_compat_r; assumption).
    assert (E * (L * L * L * L * L * L) == E - E * d) by (unfold d; ring).
    lra. }
  assert (Hclose : (ideal - 1 <= Qceiling w <= ideal + 1)%Z)
    by (apply ceil_close; lra).
  exists (Qceiling w). split; [|exact Hclose].
  assert (Hideal : (ideal <= 11258999068427)%Z).
  { pose proof (Qceiling_lt E) as Hlt. fold ideal in Hlt.
    assert (H : inject_Z (ideal - 1) < inject_Z 11258999068427).
    { eapply Qlt_le_trans; [exact Hlt|].
      eapply Qle_trans; [exact HEmax|]. vm_compute. discriminate. }
    rewrite <- Zlt_Qlt in H. lia. }
  assert (Hpos : (0 < Qceiling w)%Z).
  { pose proof (Qle_ceiling w) as Hle.
    assert (H : inject_Z 0 < inject_Z (Qceiling w)) by (change (inject_Z 0) with 0; lra).
    by rewrite <- Zlt_Qlt in H. }
  change (inject_Z (Qceiling w) * 100) with (inject_Z (Qceiling w * 100)).
  rewrite (Qceiling_comp _ _ (round64_integer (Qceiling w * 100) ltac:(lia))).
  apply Qceiling_Z.
Qed.

Local Close Scope Q_scope.

(** X15: with its default margin and unit the converter returns a multiple
    of 100 within one unit of the exact result.  For a cost [c] and a rate
    [r] of at least [2 ^ -64] with [c * r * 1.4] at most [2 ^ 50], the
    result is [k * 100] for an integer [k] that differs from the least
    integer that is at least [c * r * (1 + 0.4) / 100] by at most one: the
    binary64 operations before [Math.ceil] are rounded. *)
Theorem X15_converter_rounds_up_to_unit
    (cost : Q) (currency : string) (rates : Rates) :
  let rate := if String.eqb currency "RUB" then rub rates
              else if String.eqb currency "USD" then usd rates else 1%Q in
  (1 # 2 ^ 64 <= cost)%Q -> (1 # 2 ^ 64 <= rate)%Q ->
  (cost * rate * (14 # 10) <= 2 ^ 50)%Q ->
  let ideal := Qceiling (cost * rate * (1 + (4 # 10)) / 100) in
  let result := convertToToman None None cost currency rates in
  (100 | result)%Z /\
  ((ideal - 1) * 100 <= result <= (ideal + 1) * 100)%Z.
Proof.
  intros rate Hcost Hrate Hrange ideal result.
  assert (Hc : (0 < cost)%Q) by (eapply Qlt_le_trans; [|exact Hcost]; reflexivity).
  assert (Hr : (0 < rate)%Q) by (eapply Qlt_le_trans; [|exact Hrate]; reflexivity).
  destruct (converter_accuracy cost currency rates Hc Hr Hrange)
    as (k & Hk & Hclose).
  assert (Hclose' : (ideal - 1 <= k <= ideal + 1)%Z) by exact Hclose.
  unfold result. rewrite Hk.
  split; [apply Z.divide_factor_r|lia].
Qed.

Lemma X15_converter_rounds_up_to_unit_witness :
  let result := convertToToman None None (28 # 100) "USD" (mkRates 630 37500) in
  result = 14800%Z /\
  (100 | result)%Z /\ ((147 - 1) * 100 <= result <= (147 + 1) * 100)%Z.
Proof.
  cbv zeta. split; [vm_compute; reflexivity|].
  assert (H1 : (1 # 2 ^ 64 <= 28 # 100)%Q) by (vm_compute; discriminate).
  assert (H2 : (1 # 2 ^ 64 <= 37500)%Q) by (vm_compute; discriminate).
  assert (H3 : ((28 # 100) * 37500 * (14 # 10) <= 2 ^ 50)%Q)
    by (vm_compute; discriminate).
  exact (X15_converter_rounds_up_to_unit (28 # 100) "USD" (mkRates 630 37500)
           H1 H2 H3).
Defined.

Local Open Scope Q_scope.


Local Close Scope Q_scope.



(** ** The cache and the cached rate source *)

(** X17: what was stored is read back until it expires, and only until
    then: a read before [now + ttl * 1000] (with 600 seconds when no ttl
    or a ttl of 0 is given) returns the value and leaves the cache alone;
    a read at or after that time returns [null] and purges the entry. *)
Theorem X17_cache_round_trip {V : Type} (key : string) (v : V)
    (ttlSeconds : option Z) (now later : Z) (cache : gmap string (CacheEntry V)) :
  getCache key later (setCache key v ttlSeconds now cache)
  = if (later <? now + effectiveTtl ttlSeconds * 1000)%Z
    then (Some v, setCache key v ttlSeconds now cache)
    else (None, delete key cache).
Proof.
  unfold getCache, setCache. rewrite lookup_insert_eq. cbn [expiration cached_value].
  destruct (later <? now + effectiveTtl ttlSeconds * 1000)%Z; [done|].
  by rewrite delete_insert_eq.
Qed.

(** X18: keys do not interfere: storing under one key does not change
    what a read of another key returns, and a read, purging or not, leaves
    the entries of all other keys as they were. *)
Theorem X18_cache_keys_independent {V : Type} (key other : string) (v : V)
    (ttlSeconds : option Z) (now later : Z) (cache : gmap string (CacheEntry V)) :
  key ≠ other ->
  (getCache other later (setCache key v ttlSeconds now cache)).1
    = (getCache other later cache).1 /\
  (getCache key later cache).2 !! other = cache !! other.
Proof.
  intros Hne. unfold getCache, setCache. split.
  - rewrite lookup_insert_ne by done.
    destruct (cache !! other) as [c|]; [|done].
    by destruct (later <? expiration c)%Z.
  - destruct (cache !! key) as [c|]; cbn.
    + destruct (later <? expiration c)%Z; cbn; [done|].
      by rewrite lookup_delete_ne.
    + by rewrite lookup_delete_ne.
Qed.

Lemma X18_cache_keys_independent_witness :
  (getCache "sms-activate-prices" 5
     (setCache "sarfe-rates" 1%nat None 0 (∅ : gmap string (CacheEntry nat)))).1
  = None.
Proof.
  rewrite (proj1 (X18_cache_keys_independent "sarfe-rates"
                    "sms-activate-prices" 1%nat None 0 5 ∅ ltac:(done))).
  reflexivity.
Defined.

(** A read that served nothing leaves no entry behind, so no later read
    of that key serves anything before the next store. *)
Lemma getCache_miss_sticks {V : Type} (key : string) (now later : Z)
    (cache : gmap string (CacheEntry V)) :
  (getCache key now cache).1 = None ->
  getCache key later (getCache key now cache).2 = (None, delete key cache).
Proof.
  unfold getCache. destruct (cache !! key) as [c|] eqn:Hc.
  - destruct (now <? expiration c)%Z; [done|]. intros _. cbn.
    by rewrite lookup_delete_eq, delete_delete_eq.
  - intros _. cbn. by rewrite lookup_delete_eq, delete_delete_eq.
Qed.

(** X19: when the request for the rates fails, the outcome is decided by
    the first cache read alone: a value still fresh at that time is
    returned, otherwise the call throws "unavailable".  The second read
    in the [catch] block can never supply stale rates, because the first
    read has already purged whatever it did not serve. *)
Theorem X19_rates_no_stale_fallback {D : Type} (ttlEnv : option Z)
    (now later : Z) (cache : gmap string (CacheEntry D)) :
  getConversionRates ttlEnv now RequestFailed later cache
  = match (getCache "sarfe-rates" now cache).1 with
    | Some cachedData => (Returned (Some cachedData), cache)
    | None => (Threw (Some unavailable), delete "sarfe-rates" cache)
    end.
Proof.
  unfold getConversionRates.
  destruct (getCache "sarfe-rates" now cache) as [[d|] cache1] eqn:Hfirst.
  - cbn. f_equal. unfold getCache in Hfirst.
    destruct (cache !! "sarfe-rates") as [c|]; [|done].
    destruct (now <? expiration c)%Z; [|done]. by injection Hfirst as _ <-.
  - cbn [fst].
    pose proof (getCache_miss_sticks "sarfe-rates" now later cache) as Hmiss.
    rewrite Hfirst in Hmiss. cbn [fst snd] in Hmiss.
    by rewrite Hmiss.
Qed.

(** X20: rates fetched after a miss are served from the cache for the
    whole time to live, counted from the moment the response arrived:
    until then every later call returns them without regard to the
    network, and leaves the cache as it is.  The time to live is the one
    the environment variable spells, 600 seconds when it is unset or
    empty; a variable set to ["0"] is not replaced by the default, so such
    an entry is expired from the moment it is stored. *)
Theorem X20_rates_served_from_cache {D : Type} (ttlEnv : option Z)
    (now arrival : Z) (data : D) (cache : gmap string (CacheEntry D))
    (now2 later2 : Z) (outcome2 : FetchOutcome D) :
  (getCache "sarfe-rates" now cache).1 = None ->
  (now2 < arrival + envTtl ttlEnv * 1000)%Z ->
  let first := getConversionRates ttlEnv now (Responded (Some data)) arrival cache in
  first.1 = Returned (Some data) /\
  getConversionRates ttlEnv now2 outcome2 later2 first.2
    = (Returned (Some data), first.2).
Proof.
  intros Hmiss Hfresh first. unfold first, getConversionRates.
  destruct (getCache "sarfe-rates" now cache) as [[d|] cache1] eqn:Hfirst;
    [done|]. cbn [fst snd]. split; [done|].
  unfold getCache at 1, setCacheEnv at 1.
  rewrite lookup_insert_eq. cbn [expiration cached_value].
  by rewrite (proj2 (Z.ltb_lt _ _) Hfresh).
Qed.

(** Rates fetched at time 1000 while the variable reads ["300"] are still
    served at time 300999, also when the rate source is down. *)
Lemma X20_rates_served_from_cache_witness :
  let first := getConversionRates (Some 300%Z) 0
                 (Responded (Some (mkRates 630 58000))) 1000 ∅ in
  getConversionRates (Some 300%Z) 300999 RequestFailed 301500 first.2
  = (Returned (Some (mkRates 630 58000)), first.2).
Proof.
  exact (proj2 (X20_rates_served_from_cache (Some 300%Z) 0 1000
                  (mkRates 630 58000) ∅ 300999 301500 RequestFailed
                  eq_refl eq_refl)).
Defined.

(** ** The sms-activate adapter *)

Lemma withRetry_calls_le {W R : Type} (fn : W -> (R + JsError) * W)
    (delay jitter : Q) (random : nat -> Q) (retries : nat) (w : W) :
  calls (withRetry fn delay jitter random retries w) <= retries.
Proof.
  unfold withRetry, calls.
  destruct (retryLoop_shape fn delay jitter random retries 0 None w)
    as (errs & _ & _ & Hend).
  destruct Hend as [(r & _ & Ha & Hl)|[(e & _ & _ & Ha & Hl)|(_ & Ha & Hl)]];
    rewrite Ha, ?length_app, length_fmap; cbn [length]; lia.
Qed.

Section SmsActivateAdapterFacts.

Context {W : Type}.
Variable getServicesList : W -> (ServicesList + JsError) * W.
Variable getTopCountriesByService :
  string -> W -> (list (string * CountryPrice) + JsError) * W.
Variable random : nat -> nat -> Q.
Variable countries : JsObject.

Abbreviation fetchAll :=
  (fetchServices getTopCountriesByService random countries).

(** What the adapter reports about one offering. *)
Abbreviation fromService services r :=
  (provider r = "sms-activate" /\ operator r = "any" /\ rate r = 0%Q /\
   truthy (country r) = true /\
   (exists countryId, jsGet countries countryId = Some (country r)) /\
   exists svc, svc ∈ services /\
               service r = sms_code svc /\ service_name r = sms_name svc).

Lemma smsRecords_fromService svc prices r :
  r ∈ smsRecords countries svc prices -> fromService [svc] r.
Proof.
  unfold smsRecords. intros (entry & _ & Hr)%list_elem_of_omap.
  destruct (jsGet countries entry.1) as [countryName|] eqn:Hc; [|done].
  destruct (truthy countryName) eqn:Ht; [|done].
  injection Hr as <-. cbn. repeat split; [done..| |].
  - by exists entry.1.
  - exists svc. split; [apply elem_of_cons; by left|done].
Qed.

Lemma fetchServices_spec services n acc sent w :
  let result := fetchAll services n acc sent w in
  result.1.2 <= sent + 3 * length services /\
  forall r, r ∈ result.1.1 -> r ∈ acc \/ fromService services r.
Proof.
  revert n acc sent w.
  induction services as [|svc rest IH]; intros n acc sent w.
  { cbn. split; [lia|]. intros r Hr. by left. }
  cbn [fetchServices].
  pose proof (withRetry_calls_le (getTopCountriesByService (sms_code svc))
                1000 200 (random n) 3 w) as Hcalls.
  set (run := withRetry (getTopCountriesByService (sms_code svc))
                1000 200 (random n) 3 w) in *.
  assert (Hweaken : forall r, fromService rest r -> fromService (svc :: rest) r).
  { intros r (H1 & H2 & H3 & H4 & H5 & s' & Hin & H6).
    repeat split; [done..|]. exists s'. split; [|done].
    apply elem_of_cons. by right. }
  destruct (completion run) as [prices|e].
  - destruct (IH (S n) (acc ++ smsRecords countries svc prices)%list
                (sent + calls run) (world run)) as [Hsent Hrecs].
    cbn zeta in *. split; [cbn [length]; lia|].
    intros r Hr. destruct (Hrecs r Hr) as [Hacc|Hnew]; [|right; by apply Hweaken].
    apply elem_of_app in Hacc as [Hacc|Hnew]; [by left|right].
    destruct (smsRecords_fromService svc prices r Hnew)
      as (H1 & H2 & H3 & H4 & H5 & s' & Hin & H6).
    repeat split; [done..|]. exists svc.
    apply list_elem_of_singleton in Hin as ->.
    split; [apply elem_of_cons; by left|done].
  - destruct (IH (S n) acc (sent + calls run) (world run)) as [Hsent Hrecs].
    cbn zeta in *. split; [cbn [length]; lia|].
    intros r Hr. destruct (Hrecs r Hr) as [Hacc|Hnew]; [by left|].
    right. by apply Hweaken.
Qed.

End SmsActivateAdapterFacts.

(** X21: failures of single services never fail the adapter: it returns a
    list exactly when the service list was fetched with status
    [success].  Every record of that list is an sms-activate offering with
    operator [any] and rate 0, for a service of the fetched list, in a
    country the id table names. *)
Theorem X21_sms_adapter_records {W : Type}
    (getServicesList : W -> (ServicesList + JsError) * W)
    (getTopCountriesByService :
       string -> W -> (list (string * CountryPrice) + JsError) * W)
    (random : nat -> nat -> Q) (countries : JsObject) (w : W) :
  let listRun := withRetry getServicesList 1000 200 (random 0) 3 w in
  let run := fetchSmsActivatePrices getServicesList getTopCountriesByService
               random countries w in
  ((exists records, fetched run = Returned records) <->
   (exists resp, completion listRun = Returned resp /\
                 list_status resp = "success")) /\
  forall resp records r,
    completion listRun = Returned resp ->
    fetched run = Returned records -> r ∈ records ->
    provider r = "sms-activate" /\ operator r = "any" /\ rate r = 0%Q /\
    truthy (country r) = true /\
    (exists countryId, jsGet countries countryId = Some (country r)) /\
    exists svc, svc ∈ list_services resp /\
                service r = sms_code svc /\ service_name r = sms_name svc.
Proof.
  intros listRun run. unfold run, fetchSmsActivatePrices. fold listRun.
  destruct (completion listRun) as [resp|e].
  - destruct (String.eqb_spec (list_status resp) "success") as [Hs|Hs].
    + cbn [fetched]. split.
      * split; [intros _; by exists resp|intros _; by eexists].
      * intros resp' records r [= <-] [= <-] Hr.
        destruct (fetchServices_spec getTopCountriesByService random countries
                    (list_services resp) 1 [] (calls listRun) (world listRun))
          as [_ Hrecs].
        destruct (Hrecs r Hr) as [Hnil|Hok]; [by apply elem_of_nil in Hnil|done].
    + cbn [fetched]. split.
      * split; [by intros [? ?]|by intros (resp' & [= <-] & ?)].
      * by intros ? ? ? _ ?.
  - cbn [fetched]. split.
    + split; [by intros [? ?]|by intros (? & ? & _)].
    + by intros.
Qed.

(** X22: the adapter sends at most three requests for the service list and
    at most three per listed service. *)
Theorem X22_sms_adapter_request_bound {W : Type}
    (getServicesList : W -> (ServicesList + JsError) * W)
    (getTopCountriesByService :
       string -> W -> (list (string * CountryPrice) + JsError) * W)
    (random : nat -> nat -> Q) (countries : JsObject) (w : W) :
  let listRun := withRetry getServicesList 1000 200 (random 0) 3 w in
  let run := fetchSmsActivatePrices getServicesList getTopCountriesByService
               random countries w in
  1 <= requests run /\
  match completion listRun with
  | Returned resp => requests run <= 3 * S (length (list_services resp))
  | Threw _ => requests run <= 3
  end.
Proof.
  intros listRun run. unfold run, fetchSmsActivatePrices. fold listRun.
  pose proof (withRetry_calls_le getServicesList 1000 200 (random 0) 3 w)
    as Hle.
  assert (Hge : 1 <= calls listRun).
  { unfold listRun, withRetry, calls. cbn [retryLoop].
    destruct (getServicesList w) as [[r|e] w']; [cbn; lia|].
    destruct (retryable e); cbn; lia. }
  fold listRun in Hle.
  destruct (completion listRun) as [resp|e];
    [|cbn [requests]; split; [exact Hge|exact Hle]].
  destruct (String.eqb (list_status resp) "success");
    [|cbn [requests]; split; [exact Hge|lia]].
  destruct (fetchServices_spec getTopCountriesByService random countries
              (list_services resp) 1 [] (calls listRun) (world listRun))
    as [Hsent _].
  cbn [requests]. cbn zeta in Hsent. split; [|lia].
  assert (Hmono : forall services n acc sent w',
            sent <= (fetchServices getTopCountriesByService random countries
                       services n acc sent w').1.2).
  { induction services as [|svc rest IH]; intros n acc sent w'; [done|].
    cbn [fetchServices].
    destruct (completion _); (etrans; [|apply IH]); lia. }
  etrans; [exact Hge|apply Hmono].
Qed.

(** The sample answers give one record, the one of [tg] in Russia: country
    999 is not in the id table and the request for [wa] fails. *)
Lemma X21_sms_adapter_records_witness :
  let run := fetchSmsActivatePrices sampleGetServicesList sampleGetTopCountries
               (fun _ _ => (1 # 2)%Q) sampleCountries 0%nat in
  fetched run = Returned [smsTelegram] /\
  provider smsTelegram = "sms-activate" /\ requests run = 3.
Proof.
  cbv zeta. split; [vm_compute; reflexivity|]. split; [|vm_compute; reflexivity].
  refine (proj1 (proj2 (X21_sms_adapter_records sampleGetServicesList
                          sampleGetTopCountries (fun _ _ => (1 # 2)%Q)
                          sampleCountries 0%nat)
                   _ [smsTelegram] smsTelegram eq_refl _ _)).
  - vm_compute. reflexivity.
  - apply elem_of_cons. by left.
Defined.

(** ** Bookmarks *)

Lemma elem_of_removeFirst x y l :
  NoDup l -> (y ∈ removeFirst x l <-> y ∈ l /\ y ≠ x).
Proof.
  induction l as [|z l IH]; intros Hnd.
  - cbn. split; [by intros ?%elem_of_nil|by intros [?%elem_of_nil _]].
  - apply NoDup_cons in Hnd as [Hz Hnd]. cbn [removeFirst].
    destruct (String.eqb_spec z x) as [->|Hne].
    + rewrite elem_of_cons. split.
      * intros Hy. split; [by right|]. by intros ->.
      * by intros [[->|Hy] Hne].
    + rewrite !elem_of_cons, IH by done. split.
      * intros [->|[Hy Hyx]]; [by split; [left|]|by split; [right|]].
      * intros [[->|Hy] Hyx]; [by left|by right].
Qed.

Lemma NoDup_removeFirst x l : NoDup l -> NoDup (removeFirst x l).
Proof.
  induction l as [|z l IH]; intros Hnd; [done|].
  apply NoDup_cons in Hnd as [Hz Hnd]. cbn [removeFirst].
  destruct (String.eqb z x); [done|].
  apply NoDup_cons. split; [|by apply IH].
  rewrite elem_of_removeFirst by done. by intros [? _].
Qed.



(** X23: on a list of bookmarks without duplicates, toggling a service id
    flips whether that id is bookmarked, leaves every other bookmark as it
    was, and keeps the list free of duplicates. *)
Theorem X23_toggle_flips_membership (serviceId : string) (bookmarks : list string) :
  truthy serviceId = true -> NoDup bookmarks ->
  exists toggled,
    toggleBookmark serviceId bookmarks = Some toggled /\
    NoDup toggled /\
    (serviceId ∈ toggled <-> serviceId ∉ bookmarks) /\
    forall x, x ≠ serviceId -> (x ∈ toggled <-> x ∈ bookmarks).
Proof.
  intros Ht Hnd. unfold toggleBookmark. rewrite Ht.
  case_bool_decide as Hin.
  - exists (removeFirst serviceId bookmarks). split; [done|].
    split; [by apply NoDup_removeFirst|]. split.
    + rewrite elem_of_removeFirst by done. split; [by intros [_ ?]|done].
    + intros x Hx. rewrite elem_of_removeFirst by done. split; [by intros [? _]|done].
  - exists (bookmarks ++ [serviceId])%list. split; [done|]. split.
    + apply NoDup_app. split; [done|]. split; [|apply NoDup_singleton].
      intros x Hx Hx'%list_elem_of_singleton. by subst x.
    + split.
      * split; [done|]. intros _. apply elem_of_app. right.
        by apply list_elem_of_singleton.
      * intros x Hx. rewrite elem_of_app, list_elem_of_singleton. split.
        -- by intros [?|?].
        -- by left.
Qed.

Lemma X23_toggle_flips_membership_witness :
  exists toggled,
    toggleBookmark "srv_tg_russia_any_sms-activate"
      ["srv_telegram_russia_any_5sim"] = Some toggled /\
    "srv_tg_russia_any_sms-activate" ∈ toggled.
Proof.
  destruct (X23_toggle_flips_membership "srv_tg_russia_any_sms-activate"
              ["srv_telegram_russia_any_5sim"] eq_refl)
    as (toggled & Heq & _ & Hin & _).
  - apply NoDup_singleton.
  - exists toggled. split; [exact Heq|]. apply Hin.
    intros Hx%list_elem_of_singleton. discriminate.
Defined.



(** ** Orders: checking, cancelling, refunding *)

Lemma open_not_closed st :
  isOneOf ["PENDING"; "ACTIVE"] st = true ->
  isOneOf ["CANCELED"; "TIMEOUT"; "FINISHED"; "RECEIVED"] st = false.
Proof.
  unfold isOneOf. cbn [existsb]. rewrite !orb_false_r.
  intros [->%String.eqb_eq| ->%String.eqb_eq]%orb_true_iff; reflexivity.
Qed.

Lemma refund_status_closed st :
  String.eqb st "TIMEOUT" || String.eqb st "CANCELED" = true ->
  isOneOf ["TIMEOUT"; "CANCELED"] st = true.
Proof. unfold isOneOf. cbn [existsb]. by rewrite orb_false_r. Qed.

(** What one request can do to the money: nothing, or one refund of the
    price of an order that was still open, which closes the order. *)
Lemma serve_step l request :
  order_price (order (serve l request)) = order_price (order l) /\
  (balance (serve l request) = balance l \/
   (isOneOf ["CANCELED"; "TIMEOUT"; "FINISHED"; "RECEIVED"]
      (order_status (order l)) = false /\
    balance (serve l request) = (balance l + order_price (order l))%Q /\
    isOneOf ["TIMEOUT"; "CANCELED"] (order_status (order (serve l request)))
      = true)).
Proof.
  destruct request as [smsReply fiveSimReply finishAcked|smsReply fiveSimReply];
    cbn [serve].
  - assert (Happly : forall data,
      order_price (order (applyStatus data finishAcked l).2) = order_price (order l) /\
      (balance (applyStatus data finishAcked l).2 = balance l \/
       (isOneOf ["CANCELED"; "TIMEOUT"; "FINISHED"; "RECEIVED"]
          (order_status (order l)) = false /\
        balance (applyStatus data finishAcked l).2
          = (balance l + order_price (order l))%Q /\
        isOneOf ["TIMEOUT"; "CANCELED"]
          (order_status (order (applyStatus data finishAcked l).2)) = true))).
    { intros data. unfold applyStatus.
      destruct (isOneOf ["PENDING"; "ACTIVE"] (order_status (order l))) eqn:Hopen;
        [|by split; [|left]].
      destruct (String.eqb (data_status data) "RECEIVED" && _).
      { destruct (_ && negb finishAcked); by split; [|left]. }
      destruct (String.eqb (data_status data) "TIMEOUT"
                || String.eqb (data_status data) "CANCELED") eqn:Hback.
      { split; [done|]. right. split; [by apply open_not_closed|].
        split; [done|]. by apply refund_status_closed. }
      destruct (String.eqb (data_status data) "FINISHED"); by split; [|left]. }
    unfold checkOrder.
    destruct (String.eqb (order_provider (order l)) "sms-activate").
    + destruct smsReply; [apply Happly|by split; [|left]].
    + destruct fiveSimReply; [apply Happly|by split; [|left]].
  - unfold cancelOrder.
    destruct (isOneOf ["CANCELED"; "TIMEOUT"; "FINISHED"; "RECEIVED"]
                (order_status (order l))) eqn:Hclosed; [by split; [|left]|].
    assert (Hcatch : forall m,
      order_price (order (refundOnTimeout m l).2) = order_price (order l) /\
      (balance (refundOnTimeout m l).2 = balance l \/
       (false = false /\
        balance (refundOnTimeout m l).2 = (balance l + order_price (order l))%Q /\
        isOneOf ["TIMEOUT"; "CANCELED"]
          (order_status (order (refundOnTimeout m l).2)) = true))).
    { intros [m|]; [|by split; [|left]]. unfold refundOnTimeout.
      destruct (includes "TIMEOUT" (toUpperCase m) || _); [|by split; [|left]].
      destruct (negb _); [|by split; [|left]].
      split; [done|]. right. done. }
    destruct (String.eqb (order_provider (order l)) "sms-activate").
    + destruct smsReply as [data|m]; [|apply Hcatch].
      destruct (String.eqb data "ACCESS_CANCEL"); [|apply Hcatch].
      split; [done|]. by right.
    + destruct fiveSimReply as [st|m]; [|apply Hcatch].
      destruct (String.eqb st "CANCELED"); [|by split; [|left]].
      split; [done|]. by right.
Qed.

Lemma serve_closed l request :
  isOneOf ["CANCELED"; "TIMEOUT"; "FINISHED"; "RECEIVED"]
    (order_status (order l)) = true ->
  serve l request = l.
Proof.
  intros Hclosed.
  assert (Hnot : isOneOf ["PENDING"; "ACTIVE"] (order_status (order l)) = false).
  { destruct (isOneOf ["PENDING"; "ACTIVE"] _) eqn:Hopen; [|done].
    apply open_not_closed in Hopen. congruence. }
  destruct request as [smsReply fiveSimReply finishAcked|smsReply fiveSimReply];
    cbn [serve].
  - unfold checkOrder, applyStatus. rewrite Hnot.
    destruct (String.eqb _ "sms-activate"); [by destruct smsReply|by destruct fiveSimReply].
  - unfold cancelOrder. by rewrite Hclosed.
Qed.

(** X25: an order that is cancelled, timed out, finished or has received
    its code is closed for good: checking it or cancelling it changes
    neither the order nor the balance, whatever the provider answers, and
    a cancel request is refused with status 400. *)
Theorem X25_closed_orders_are_final (l : Ledger)
    (smsStatus : ProviderCall string) (fiveSimStatus : ProviderCall StatusData)
    (finishAcked : bool) (smsCancel fiveSimCancel : ProviderCall string) :
  isOneOf ["CANCELED"; "TIMEOUT"; "FINISHED"; "RECEIVED"]
    (order_status (order l)) = true ->
  (checkOrder smsStatus fiveSimStatus finishAcked l).2 = l /\
  cancelOrder smsCancel fiveSimCancel l = (400, l).
Proof.
  intros Hclosed. split.
  - apply (serve_closed l (CheckOrder smsStatus fiveSimStatus finishAcked) Hclosed).
  - unfold cancelOrder. by rewrite Hclosed.
Qed.

Lemma X25_closed_orders_are_final_witness :
  let l := mkLedger 1000 (mkOrder "TIMEOUT" 8820 "5sim" None) in
  cancelOrder (Rejected None) (Answered "CANCELED") l = (400, l).
Proof.
  exact (proj2 (X25_closed_orders_are_final
                  (mkLedger 1000 (mkOrder "TIMEOUT" 8820 "5sim" None))
                  (Rejected None) (Rejected None) true
                  (Rejected None) (Answered "CANCELED") eq_refl)).
Defined.

(** X26: an order is refunded at most once.  After any sequence of check
    and cancel requests, with any answers of the providers, the balance is
    the initial one or the initial one plus the price of the order, and in
    the second case the order is cancelled or timed out. *)
Theorem X26_refund_at_most_once (requests : list OrderRequest) (l : Ledger) :
  let final := fold_left serve requests l in
  order_price (order final) = order_price (order l) /\
  (balance final = balance l \/
   (balance final = (balance l + order_price (order l))%Q /\
    isOneOf ["TIMEOUT"; "CANCELED"] (order_status (order final)) = true)).
Proof.
  cbv zeta.
  assert (Hrefunded : forall rs l0,
            isOneOf ["TIMEOUT"; "CANCELED"] (order_status (order l0)) = true ->
            fold_left serve rs l0 = l0).
  { induction rs as [|r rs IH]; intros l0 Hst; [done|].
    cbn [fold_left]. rewrite serve_closed; [by apply IH|].
    unfold isOneOf in *. cbn [existsb] in *.
    apply orb_true_iff in Hst as [->%String.eqb_eq|Hst]; [done|].
    rewrite orb_false_r in Hst. apply String.eqb_eq in Hst as ->. done. }
  revert l. induction requests as [|r rs IH]; intros l; [by split; [|left]|].
  cbn [fold_left].
  destruct (serve_step l r) as [Hprice [Hbal|(_ & Hbal & Hst)]].
  - destruct (IH (serve l r)) as [Hp Hb]. rewrite Hprice, Hbal in *. done.
  - rewrite (Hrefunded rs _ Hst). split; [done|]. right. done.
Qed.

(** ** The identity string read back by the purchase route *)

Lemma splitOn_not_nil sep s : splitOn sep s ≠ [].
Proof.
  destruct s as [|c r]; [done|]. cbn.
  destruct (Ascii.eqb c sep); [done|]. by destruct (splitOn sep r).
Qed.

(** A piece without separator, followed by a separator, is split off. *)
Lemma splitOn_piece sep a b :
  splitOn sep a = [a] ->
  splitOn sep (a +:+ String sep b) = a :: splitOn sep b.
Proof.
  induction a as [|c r IH]; intros Ha.
  - change ("" +:+ String sep b) with (String sep b).
    cbn [splitOn]. by rewrite Ascii.eqb_refl.
  - change (String c r +:+ String sep b) with (String c (r +:+ String sep b)).
    cbn [splitOn] in *. destruct (Ascii.eqb c sep).
    + injection Ha as Ha Hr. by destruct (splitOn_not_nil sep r).
    + destruct (splitOn sep r) as [|w ws] eqn:Hr;
        [by destruct (splitOn_not_nil sep r)|].
      injection Ha as -> ->. by rewrite IH.
Qed.

(** X27: the purchase route recovers the 5sim path from the identity
    string.  When the cleaned service code, the cleaned country and the
    operator of a record contain no underscore, splitting the identity of
    its document at the underscores gives those three fields back, and the
    path sent to 5sim is [/user/buy/activation/<country>/<operator>/<service>]. *)
Theorem X27_purchase_path_from_id
    (usd rub : Q) (servicePriority : gmap string PriorityInfo)
    (s : RawService) (countryData : CountryData) :
  splitOn "_" (cleanServiceCode s) = [cleanServiceCode s] ->
  splitOn "_" (cleanCountry s) = [cleanCountry s] ->
  splitOn "_" (operator s) = [operator s] ->
  let f := formattedService usd rub servicePriority s countryData in
  splitOn "_" (id f)
    = "srv" :: cleanServiceCode s :: cleanCountry s :: operator s
        :: splitOn "_" (provider s) /\
  fiveSimPurchasePath (id f) None
    = "/user/buy/activation/" +:+ cleanCountry s +:+ "/" +:+ operator s
        +:+ "/" +:+ cleanServiceCode s.
Proof.
  intros Hservice Hcountry Hoperator f.
  assert (Hsplit : splitOn "_" (id f)
            = "srv" :: cleanServiceCode s :: cleanCountry s :: operator s
                :: splitOn "_" (provider s)).
  { unfold f. cbn [id formattedService].
    change ("srv_" +:+ ?x) with ("srv" +:+ String "_" x).
    rewrite (splitOn_piece "_" "srv") by reflexivity. f_equal.
    change ("_" +:+ ?x) with (String "_" x).
    rewrite (splitOn_piece "_" (cleanServiceCode s)) by done. f_equal.
    change ("_" +:+ ?x) with (String "_" x).
    rewrite (splitOn_piece "_" (cleanCountry s)) by done. f_equal.
    change ("_" +:+ ?x) with (String "_" x).
    by rewrite (splitOn_piece "_" (operator s)). }
  split; [exact Hsplit|].
  unfold fiveSimPurchasePath, element. by rewrite Hsplit.
Qed.

Lemma X27_purchase_path_from_id_witness :
  fiveSimPurchasePath
    (id (formattedService 58000 630 samplePriority fiveSimTelegram
           (mkCountryData "Rusiye" "RU" "Russia"))) None
  = "/user/buy/activation/russia/any/telegram".
Proof.
  exact (proj2 (X27_purchase_path_from_id 58000 630 samplePriority
                  fiveSimTelegram (mkCountryData "Rusiye" "RU" "Russia")
                  eq_refl eq_refl eq_refl)).
Defined.

Lemma splitOn_inj sep s s' : splitOn sep s = splitOn sep s' -> s = s'.
Proof.
  revert s'. induction s as [|c r IH]; intros [|c' r']; cbn [splitOn].
  - done.
  - destruct (Ascii.eqb c' sep).
    + intros [= Hr]. symmetry in Hr. by destruct (splitOn_not_nil sep r').
    + by destruct (splitOn sep r').
  - destruct (Ascii.eqb c sep).
    + intros [= Hr]. by destruct (splitOn_not_nil sep r).
    + by destruct (splitOn sep r).
  - destruct (Ascii.eqb_spec c sep) as [->|Hc],
             (Ascii.eqb_spec c' sep) as [->|Hc'].
    + intros [= Hr]. f_equal. by apply IH.
    + destruct (splitOn sep r'); intros [=].
    + destruct (splitOn sep r); intros [=].
    + destruct (splitOn sep r) as [|w ws] eqn:Hr;
        [by destruct (splitOn_not_nil sep r)|].
      destruct (splitOn sep r') as [|w' ws'] eqn:Hr';
        [by destruct (splitOn_not_nil sep r')|].
      intros [= -> -> ->]. f_equal. apply IH. by rewrite Hr'.
Qed.

(** X28: on fields without underscores the identity is injective: two
    records whose cleaned service code, cleaned country and operator
    contain no underscore get the same identity only if they agree on
    those three fields and on the provider.  So two documents of a run
    share an identity only when their records clean to the same four
    fields, or when a field contains an underscore. *)
Theorem X28_identity_injective_without_underscores
    (usd rub usd' rub' : Q) (sp sp' : gmap string PriorityInfo)
    (s s' : RawService) (cd cd' : CountryData) :
  splitOn "_" (cleanServiceCode s) = [cleanServiceCode s] ->
  splitOn "_" (cleanCountry s) = [cleanCountry s] ->
  splitOn "_" (operator s) = [operator s] ->
  splitOn "_" (cleanServiceCode s') = [cleanServiceCode s'] ->
  splitOn "_" (cleanCountry s') = [cleanCountry s'] ->
  splitOn "_" (operator s') = [operator s'] ->
  id (formattedService usd rub sp s cd) = id (formattedService usd' rub' sp' s' cd') ->
  cleanServiceCode s = cleanServiceCode s' /\ cleanCountry s = cleanCountry s' /\
  operator s = operator s' /\ provider s = provider s'.
Proof.
  intros H1 H2 H3 H1' H2' H3' Hid.
  assert (Hsplit : forall a b c p,
            splitOn "_" a = [a] -> splitOn "_" b = [b] -> splitOn "_" c = [c] ->
            splitOn "_" ("srv_" +:+ a +:+ "_" +:+ b +:+ "_" +:+ c +:+ "_" +:+ p)
            = "srv" :: a :: b :: c :: splitOn "_" p).
  { intros a b c p Ha Hb Hc.
    change ("srv_" +:+ ?x) with ("srv" +:+ String "_" x).
    rewrite (splitOn_piece "_" "srv") by reflexivity. f_equal.
    change ("_" +:+ ?x) with (String "_" x).
    rewrite (splitOn_piece "_" a) by done. f_equal.
    change ("_" +:+ ?x) with (String "_" x).
    rewrite (splitOn_piece "_" b) by done. f_equal.
    change ("_" +:+ ?x) with (String "_" x).
    by rewrite (splitOn_piece "_" c). }
  apply (f_equal (splitOn "_")) in Hid. cbn [id formattedService] in Hid.
  rewrite !Hsplit in Hid by done.
  injection Hid as Ha Hb Hc Hp. repeat split; [done..|].
  by apply (splitOn_inj "_").
Qed.

Lemma X28_identity_injective_without_underscores_witness :
  let f := formattedService 58000 630 samplePriority smsTelegram
             (mkCountryData "Rusiye" "RU" "Russia") in
  let f' := formattedService 58000 630 samplePriority smsTelegramAgain
              (mkCountryData "Rusiye" "RU" "Russia") in
  id f = id f' /\ cleanServiceCode smsTelegram = cleanServiceCode smsTelegramAgain.
Proof.
  cbv zeta. split; [reflexivity|].
  exact (proj1 (X28_identity_injective_without_underscores
                  58000 630 58000 630 samplePriority samplePriority
                  smsTelegram smsTelegramAgain
                  (mkCountryData "Rusiye" "RU" "Russia")
                  (mkCountryData "Rusiye" "RU" "Russia")
                  eq_refl eq_refl eq_refl eq_refl eq_refl eq_refl eq_refl)).
Defined.

(** ** What a reader can find, and what an empty run publishes *)

Lemma reachable_within_four validates formatted db st :
  reachable validates formatted db st ->
  exists n, n <= 4 /\
            st = publishRun validates formatted n (mkPublish Connected db).
Proof.
  unfold reachable. intros [n Hn]%rtc_nsteps.
  revert st Hn. induction n as [|n IH]; intros st Hn.
  - inversion Hn; subst. exists 0. split; [lia|done].
  - apply nsteps_inv_r in Hn as (mid & Hmid & Hstep).
    destruct (IH mid Hmid) as (k & Hk & ->).
    unfold publish_step in Hstep.
    destruct k as [|[|[|[|[|k]]]]]; try lia.
    + exists 1. split; [lia|]. cbn in Hstep. by injection Hstep as <-.
    + exists 2. split; [lia|]. cbn in Hstep. by injection Hstep as <-.
    + exists 3. split; [lia|]. cbn in Hstep. by injection Hstep as <-.
    + exists 4. split; [lia|].
      rewrite stateAfter_3 in Hstep. rewrite stateAfter_4.
      unfold publishNext in Hstep. cbn [phase store] in Hstep.
      rewrite (renameCollection_moves _ _ _ _
                 (dropped_shadow validates formatted db)
                 (dropped_live validates formatted db)) in Hstep.
      by injection Hstep as <-.
    + rewrite stateAfter_4 in Hstep. discriminate.
Qed.

(** X29: a reader never finds a half-written or mixed catalog.  In every
    state of a publish the live collection is the prior one, missing, or
    the complete set of validated documents of the run;
    the documents being inserted are in the shadow collection only, and
    no other collection is touched. *)
Theorem X29_no_partial_catalog
    (validates : Service -> bool) (formatted : list Service)
    (db : gmap string (list Service)) (st : PublishState) :
  reachable validates formatted db st ->
  (store st !! live = db !! live \/
   store st !! live = None \/
   store st !! live = Some (filter (fun d => validates d = true) formatted)) /\
  forall c, c ≠ live -> c ≠ shadow -> store st !! c = db !! c.
Proof.
  intros (n & Hn & ->)%reachable_within_four.
  assert (Hclear : forall c, c ≠ shadow -> deleteMany shadow db !! c = db !! c).
  { intros c Hc. unfold deleteMany. rewrite lookup_alter. by case_decide. }
  assert (Hins : forall c, c ≠ shadow ->
            insertMany validates shadow formatted (deleteMany shadow db) !! c
            = db !! c).
  { intros c Hc. unfold insertMany. rewrite lookup_insert_ne by done.
    by apply Hclear. }
  destruct n as [|[|[|[|[|n]]]]]; try lia.
  - split; [by left|done].
  - cbn. split; [left; by apply Hclear|]. intros c _ Hc. by apply Hclear.
  - cbn [publishRun publishNext phase store].
    split; [left; by apply Hins|]. intros c _ Hc. by apply Hins.
  - rewrite stateAfter_3. cbn [store]. split.
    + right. left. apply dropped_live.
    + intros c Hl Hs. unfold dropCollection.
      destruct (insertMany validates shadow formatted (deleteMany shadow db)
                  !! live); cbn; [rewrite lookup_delete_ne by done|];
        by apply Hins.
  - split.
    + right. right. rewrite stateAfter_4. cbn [store]. apply lookup_insert_eq.
    + intros c Hl Hs. by apply publish_keeps_other_collections.
Qed.

(** A catalog of one document is being replaced by a catalog of two.  Once
    the two documents are inserted the shadow collection holds them both,
    the live collection still holds the prior document, and a collection
    of another name is as it was. *)
Lemma X29_no_partial_catalog_witness :
  let prior := formattedServices 58000 630 samplePriority sampleResolver
                 [fiveSimTelegram] in
  let next := formattedServices 58000 630 samplePriority sampleResolver
                [fiveSimTelegram; smsTelegram] in
  let db : gmap string (list Service) :=
    <["orders" := prior]> {[ live := prior ]} in
  let st := publishRun (fun _ => true) next 2 (mkPublish Connected db) in
  (length prior = 1%nat /\ length next = 2%nat /\ phase st = Inserted /\
   length <$> store st !! shadow = Some 2%nat /\
   length <$> store st !! live = Some 1%nat) /\
  (store st !! live = db !! live \/
   store st !! live = None \/
   store st !! live = Some (filter (fun d => (fun _ => true) d = true) next)) /\
  forall c, c ≠ live -> c ≠ shadow -> store st !! c = db !! c.
Proof.
  cbv zeta. split; [repeat split; vm_compute; reflexivity|].
  exact (X29_no_partial_catalog (fun _ => true) _ _ _
           (stateAfter_reachable (fun _ => true) _ _ 2)).
Defined.

Lemma omap_all_None {A B : Type} (f : A -> option B) (l : list A) :
  (forall x, f x = None) -> omap f l = [].
Proof.
  intros Hf. induction l as [|x l IH]; [done|].
  cbn. by rewrite Hf.
Qed.

(** X30: a run with both rates at zero, the value they have until they are
    fetched, empties the catalog: every record is dropped for its price,
    the publisher goes through with no document, and the live collection
    ends up empty whatever it held before. *)
Theorem X30_zero_rates_empty_the_catalog
    (servicePriority : gmap string PriorityInfo)
    (resolve : string -> option CountryData) (validates : Service -> bool)
    (raw : list RawService) (db : gmap string (list Service)) :
  let formatted := formattedServices 0 0 servicePriority resolve raw in
  formatted = [] /\
  store (publishRun validates formatted 4 (mkPublish Connected db)) !! live
    = Some [].
Proof.
  intros formatted.
  assert (Hnone : forall s, normalize 0 0 servicePriority resolve s = None).
  { intros s. unfold normalize.
    destruct (truthy _); [|done]. destruct (resolve _); [|done].
    assert (Hbase : (basePriceToman 0 0 s <= 0)%Q).
    { unfold basePriceToman. destruct (String.eqb _ _); lra. }
    apply Qle_bool_iff in Hbase. by rewrite Hbase. }
  assert (Hempty : formatted = []).
  { apply Permutation_nil. symmetry. unfold formatted.
    rewrite formattedServices_perm. by rewrite omap_all_None. }
  split; [exact Hempty|]. rewrite Hempty, stateAfter_4. cbn [store].
  by rewrite lookup_insert_eq.
Qed.
